(** * Heat-diffusion grid: the two [updateGrid] kernels

    A shallow embedding of [simulation.js] (neighbour transfer) and
    [simulation2.js] (Laplacian stencil with float accumulators), and the
    properties of the update step that the specification states about them.

    The host globals [GRID_W], [GRID_H] and [temp] are fields of the state
    record of each strategy, next to the module-level buffers the strategy
    keeps between frames.  The field [temp] is a typed array of bytes:
    a cell is an integer, a write out of range is dropped, a read is never
    out of range where the theorems apply. *)

From Stdlib Require Import ZArith QArith Qround Lia Bool.
From Stdlib Require Import Floats.SpecFloat.
From stdpp Require Import base option list list_numbers.

Local Open Scope Z_scope.

(** ** Shared: cells of the byte field *)

(** Modelled from the spec: the field array is declared by the host
    ([index.html], not among the kernel files); the specification makes it a
    dense array of integers of [0,100], taken here as a byte array like the
    [Uint8Array] snapshot that is copied from it.  Storing an integer into a
    byte array keeps its low eight bits. *)
Definition to_uint8 (v : Z) : Z := v mod 256.

(** The cell index of column [x], row [y] on a grid of width [W]. *)
Definition cell_index (W x y : Z) : nat := Z.to_nat (y * W + x).

(** The legal temperature range of a cell. *)
Definition in_range (v : Z) : Prop := 0 <= v <= 100.

(** The visiting order of the two nested loops: rows outside, columns inside. *)
Definition row_major (W H : Z) : list (Z * Z) :=
  y ← seqZ 0 H; x ← seqZ 0 W; [(x, y)].

(** The grid points the loops range over. *)
Definition on_grid (W H : Z) (c : Z * Z) : Prop :=
  0 <= c.1 < W /\ 0 <= c.2 < H.

(** A loop body that writes one slot of an array, the value not depending on
    the array written to. *)
Definition paint {C V : Type} (slot : C → nat) (value : C → V)
    (t : list V) (c : C) : list V :=
  <[slot c := value c]> t.

(** Modelled from the spec: the host ([index.html], which owns the grid and
    is not among the kernel files) may replace the grid between two frames
    (paint, random fill, resize); it keeps every cell an integer of [0,100]
    and the array as long as the grid. *)
Record field := Field { width : Z; height : Z; cells : list Z }.

Definition field_ok (g : field) : Prop :=
  1 <= width g /\ 1 <= height g /\
  Z.of_nat (length (cells g)) = width g * height g /\
  Forall in_range (cells g).

(** ** Variant A: neighbour transfer ([simulation.js]) *)

Module NeighbourTransfer.

(** [const FLOW_RATE = 0.25]: a power of two, so [diff * FLOW_RATE] is exact
    in binary64 for every difference of two bytes and is the rational below
    ([transfer_arithmetic_binary64] checks it against the numbers). *)
Definition FLOW_RATE : Q := 1 # 4.

(** [Math.round]: the nearest integer, a half going towards plus infinity. *)
Definition Math_round (q : Q) : Z := Qfloor (q + (1 # 2)).

(** [Math.trunc]: the integer part, towards zero. *)
Definition Math_trunc (q : Q) : Z :=
  if Qle_bool 0 q then Qfloor q else Qceiling q.

Definition NEIGHBOURS : list (Z * Z) := [(0, -1); (0, 1); (-1, 0); (1, 0)].

(** Lines 127-142: the clamped transfer for one signed difference. *)
Definition transfer (diff : Z) : Z :=
  let transfer := Math_round (inject_Z diff * FLOW_RATE) in
  let maxTransfer := Math_trunc (inject_Z diff / 2) in
  if 0 <? diff then Z.max 0 (Z.min transfer maxTransfer)
  else Z.min 0 (Z.max transfer maxTransfer).

(** Reading the snapshot; every read of the kernel is in range. *)
Definition read (buf : list Z) (i : nat) : Z := buf !!! i.

(** The body of the loop over [n]: one neighbour's contribution to [delta]. *)
Definition neighbour_step (W H : Z) (oldTemp : list Z) (x y cellTemp : Z)
    (delta : Z) (d : Z * Z) : Z :=
  let nx := x + d.1 in
  let ny := y + d.2 in
  if (nx <? 0) || (nx >=? W) || (ny <? 0) || (ny >=? H) then delta
  else
    let neighbourTemp := read oldTemp (cell_index W nx ny) in
    let diff := neighbourTemp - cellTemp in
    if diff =? 0 then delta else delta + transfer diff.

(** The value written to cell [(x, y)]: line 148. *)
Definition new_temp (W H : Z) (oldTemp : list Z) (x y : Z) : Z :=
  let cellTemp := read oldTemp (cell_index W x y) in
  let delta := foldl (neighbour_step W H oldTemp x y cellTemp) 0 NEIGHBOURS in
  Z.max 0 (Z.min 100 (cellTemp + delta)).

(** The body of the two cell loops: one write into the live array. *)
Definition visit (W H : Z) (oldTemp : list Z) (temp : list Z) (c : Z * Z)
    : list Z :=
  <[cell_index W c.1 c.2 := new_temp W H oldTemp c.1 c.2]> temp.

Record state := State {
  GRID_W : Z;
  GRID_H : Z;
  temp : list Z;
  oldTemp : option (list Z);
}.

(** Lines 99-101: keep the snapshot buffer, or allocate a zeroed one. *)
Definition ensure_snapshot (size : Z) (buf : option (list Z)) : list Z :=
  match buf with
  | Some b => if decide (Z.of_nat (length b) = size) then b
              else replicate (Z.to_nat size) 0
  | None => replicate (Z.to_nat size) 0
  end.

(** Line 102, [oldTemp.set(temp)]: the source is copied over the head of the
    buffer; a source longer than the buffer raises [RangeError]. *)
Definition set_from (buf src : list Z) : option (list Z) :=
  if decide (length src <= length buf)%nat
  then Some ((to_uint8 <$> src) ++ drop (length src) buf)
  else None.

(** One frame, the cells visited in the order [order]; [None] is a throw
    ([new Uint8Array] of a negative length, or the copy above). *)
Definition updateGrid_in (order : list (Z * Z)) (st : state) : option state :=
  let W := GRID_W st in
  let H := GRID_H st in
  if W * H <? 0 then None
  else
    snap ← set_from (ensure_snapshot (W * H) (oldTemp st)) (temp st);
    Some (State W H (foldl (visit W H snap) (temp st) order) (Some snap)).

Definition updateGrid (st : state) : option state :=
  updateGrid_in (row_major (GRID_W st) (GRID_H st)) st.

(** [n] frames in a row, nothing touching the field in between. *)
Fixpoint frames (n : nat) (st : state) : option state :=
  match n with
  | O => Some st
  | S k => st' ← updateGrid st; frames k st'
  end.

(** The host replaces the grid; the snapshot buffer stays as it is. *)
Definition host_write (g : field) (st : state) : state :=
  State (width g) (height g) (cells g) (oldTemp st).

(** A frame sequence: before each frame the host may replace the grid. *)
Fixpoint run (edits : list (option field)) (st : state) : option state :=
  match edits with
  | [] => Some st
  | e :: rest =>
      st' ← updateGrid (from_option (λ g, host_write g st) st e);
      run rest st'
  end.

(** A state as the host builds it: positive size, one cell per grid point. *)
Definition well_formed (st : state) : Prop :=
  1 <= GRID_W st /\ 1 <= GRID_H st /\
  Z.of_nat (length (temp st)) = GRID_W st * GRID_H st.

Definition total (field : list Z) : Z := foldr Z.add 0 field.

(** Two signed differences of strictly opposite sign. *)
Definition opposite_sign (d d' : Z) : Prop :=
  (0 < d ∧ d' < 0) ∨ (d < 0 ∧ 0 < d').

(** Cardinally adjacent grid points. *)
Definition adjacent (a b : Z * Z) : Prop :=
  Z.abs (a.1 - b.1) + Z.abs (a.2 - b.2) = 1.

(** The value of cell [c] in a field of width [W]. *)
Definition at_cell (W : Z) (t : list Z) (c : Z * Z) : Z :=
  read t (cell_index W c.1 c.2).

(** The grid point [c] seen in a mirror: columns reversed when [fx], rows
    reversed when [fy]. *)
Definition flip (W H : Z) (fx fy : bool) (c : Z * Z) : Z * Z :=
  (if fx then W - 1 - c.1 else c.1, if fy then H - 1 - c.2 else c.2).

(** The field [t'] is the field [t] seen in that mirror. *)
Definition mirrored (W H : Z) (fx fy : bool) (t t' : list Z) : Prop :=
  length t' = length t ∧
  ∀ c, on_grid W H c →
       at_cell W t' (flip W H fx fy c) = at_cell W t c.

(** What the neighbour in direction [d] adds to [delta]: nothing when it is
    off the grid (line 118) or as warm as the cell (line 124). *)
Definition contribution (W H : Z) (oldTemp : list Z) (x y : Z) (d : Z * Z)
    : Z :=
  if decide (on_grid W H (x + d.1, y + d.2))
  then transfer (read oldTemp (cell_index W (x + d.1) (y + d.2))
                 - read oldTemp (cell_index W x y))
  else 0.

End NeighbourTransfer.

(** ** JavaScript numbers

    A number is an IEEE 754 value, [spec_float] of the standard library:
    a sign, a mantissa and a binary exponent.  The arithmetic of the kernel
    is binary64 ([prec = 53], [emax = 1024], round to nearest even); the
    accumulators are [Float32Array]s, so a store rounds to binary32
    ([prec = 24], [emax = 128]).  A binary32 value read back is the same
    sign, mantissa and exponent: [SFadd] and [SFsub] align their operands
    themselves, and each product of the kernel has a normal binary64
    constant as one factor. *)

Module Number.

Abbreviation number := spec_float.

Definition NaN : number := S754_nan.

Definition add : number → number → number := SFadd 53 1024.
Definition sub : number → number → number := SFsub 53 1024.
Definition mul : number → number → number := SFmul 53 1024.
Definition div : number → number → number := SFdiv 53 1024.

(** An integer as a number. *)
Definition of_Z (z : Z) : number := binary_normalize 53 1024 z 0 false.

(** The store into a [Float32Array]. *)
Definition fround (x : number) : number :=
  match x with
  | S754_finite s m e => binary_round 24 128 s m e
  | _ => x
  end.

(** The signed mantissa. *)
Definition signed (s : bool) (m : positive) : Z := cond_Zopp s (Z.pos m).

(** [m1 * 2^e1] against [m2 * 2^e2], exactly. *)
Definition dyadic_compare (m1 e1 m2 e2 : Z) : comparison :=
  let e := Z.min e1 e2 in
  (m1 * 2 ^ (e1 - e)) ?= (m2 * 2 ^ (e2 - e)).

(** The order of numbers by value; [None] when a NaN is involved. *)
Definition compare (x y : number) : option comparison :=
  match x, y with
  | S754_nan, _ | _, S754_nan => None
  | S754_infinity s1, S754_infinity s2 =>
      Some match s1, s2 with
           | true, true | false, false => Eq
           | true, false => Lt
           | false, true => Gt
           end
  | S754_infinity s, _ => Some (if s then Lt else Gt)
  | _, S754_infinity s => Some (if s then Gt else Lt)
  | S754_zero _, S754_zero _ => Some Eq
  | S754_zero _, S754_finite s _ _ => Some (if s then Gt else Lt)
  | S754_finite s _ _, S754_zero _ => Some (if s then Lt else Gt)
  | S754_finite s1 m1 e1, S754_finite s2 m2 e2 =>
      Some (dyadic_compare (signed s1 m1) e1 (signed s2 m2) e2)
  end.

Definition dyadic_le (m1 e1 m2 e2 : Z) : Prop :=
  dyadic_compare m1 e1 m2 e2 ≠ Gt.

(** A rounding result of sign [s]: anything but NaN. *)
Definition rounded_sign (s : bool) (r : number) : Prop :=
  match r with
  | S754_nan => False
  | S754_zero s' | S754_infinity s' | S754_finite s' _ _ => s' = s
  end.

(** A zero or finite number of sign [s] and magnitude at most [M * 2^E]. *)
Definition below (M E : Z) (s : bool) (r : number) : Prop :=
  match r with
  | S754_zero s' => s' = s
  | S754_finite s' m e => s' = s ∧ dyadic_le (Z.pos m) e M E
  | _ => False
  end.

(** A zero, or a positive finite number at most [M * 2^E]. *)
Definition within (M E : Z) (r : number) : Prop :=
  match r with
  | S754_zero _ => True
  | S754_finite false m e => dyadic_le (Z.pos m) e M E
  | _ => False
  end.

(** Zero or finite: neither NaN nor an infinity. *)
Definition is_finite (r : number) : Prop :=
  match r with
  | S754_zero _ | S754_finite _ _ _ => True
  | _ => False
  end.

Definition leb (x y : number) : bool :=
  match compare x y with Some (Lt | Eq) => true | _ => false end.

(** [x !== y] on numbers. *)
Definition strict_neq (x y : number) : bool :=
  match compare x y with Some Eq => false | _ => true end.

Definition is_neg_zero (x : number) : bool :=
  match x with S754_zero true => true | _ => false end.

(** [Math.max(x, y)]: NaN if either is, and [+0] above [-0]. *)
Definition Math_max (x y : number) : number :=
  match compare x y with
  | None => NaN
  | Some Gt => x
  | Some Lt => y
  | Some Eq => if is_neg_zero x then y else x
  end.

(** [Math.min(x, y)]: NaN if either is, and [-0] below [+0]. *)
Definition Math_min (x y : number) : number :=
  match compare x y with
  | None => NaN
  | Some Lt => x
  | Some Gt => y
  | Some Eq => if is_neg_zero x then x else y
  end.

(** The integer [floor (m * 2^e + 1/2)]. *)
Definition round_half_up (m e : Z) : Z :=
  if 0 <=? e then m * 2 ^ e else (m + 2 ^ (- e - 1)) / 2 ^ (- e).

(** [Math.round]: the nearest integer, a half going towards plus infinity;
    a result of zero keeps the sign of the argument. *)
Definition Math_round (x : number) : number :=
  match x with
  | S754_finite s m e =>
      let n := round_half_up (signed s m) e in
      if n =? 0 then S754_zero s else of_Z n
  | _ => x
  end.

(** The integer part of a number, towards zero; 0 for NaN and infinities. *)
Definition trunc (x : number) : Z :=
  match x with
  | S754_finite s m e =>
      if 0 <=? e then signed s m * 2 ^ e else Z.quot (signed s m) (2 ^ (- e))
  | _ => 0
  end.

(** The store of a number into the byte field. *)
Definition to_byte (x : number) : Z := to_uint8 (trunc x).

(** The same sign, mantissa and exponent. *)
Definition same (x y : number) : bool :=
  match x, y with
  | S754_zero s, S754_zero s' | S754_infinity s, S754_infinity s' =>
      Bool.eqb s s'
  | S754_nan, S754_nan => true
  | S754_finite s m e, S754_finite s' m' e' =>
      Bool.eqb s s' && Pos.eqb m m' && Z.eqb e e'
  | _, _ => false
  end.

(** The number is the integer [z], exactly. *)
Definition is_integer (x : number) (z : Z) : bool :=
  match x with
  | S754_zero _ => z =? 0
  | S754_finite s m e =>
      if 0 <=? e then signed s m * 2 ^ e =? z else signed s m =? z * 2 ^ (- e)
  | _ => false
  end.

End Number.

Declare Scope number_scope.
Delimit Scope number_scope with num.
Infix "+" := Number.add : number_scope.
Infix "-" := Number.sub : number_scope.
Infix "*" := Number.mul : number_scope.

(** ** Variant B: Laplacian stencil ([simulation2.js]) *)

Module LaplacianStencil.
Import Number.

(** [const DIFFUSIVITY = 0.2]: the binary64 number nearest to one fifth. *)
Definition DIFFUSIVITY : number := S754_finite false 7205759403792794 (-55).

Record state := State {
  GRID_W : Z;
  GRID_H : Z;
  temp : list Z;
  stateA : option (list number);
  stateB : option (list number);
}.

(** [temp[i]] as a number; [undefined], which arithmetic and the float
    store turn into NaN, past the end. *)
Definition field_at (temp : list Z) (i : nat) : number :=
  from_option of_Z NaN (temp !! i).

(** An accumulator read, at a natural and at an integer index. *)
Definition acc (buf : list number) (i : nat) : number := default NaN (buf !! i).

Definition acc_at (buf : list number) (i : Z) : number :=
  if i <? 0 then NaN else acc buf (Z.to_nat i).

(** Lines 35-44: fresh buffers seeded from the field, unless [stateA] has
    the wanted length; [None] for the throw of a negative length. *)
Definition ensureBuffers (size : Z) (st : state)
    : option (option (list number) * option (list number)) :=
  match stateA st with
  | Some a =>
      if decide (Z.of_nat (length a) = size) then Some (stateA st, stateB st)
      else if size <? 0 then None
      else let seed := (λ i, fround (field_at (temp st) i))
                         <$> seq 0 (Z.to_nat size) in
           Some (Some seed, Some seed)
  | None =>
      if size <? 0 then None
      else let seed := (λ i, fround (field_at (temp st) i))
                         <$> seq 0 (Z.to_nat size) in
           Some (Some seed, Some seed)
  end.

(** Lines 59-61: the body of the loop that adopts external writes. *)
Definition reconcile_cell (temp : list Z) (a : list number) (i : nat)
    : list number :=
  if strict_neq (field_at temp i) (Math_round (acc a i))
  then <[i := fround (field_at temp i)]> a
  else a.

Definition reconcile (size : Z) (temp : list Z) (a : list number)
    : list number :=
  foldl (reconcile_cell temp) a (seq 0 (Z.to_nat size)).

(** Lines 65-80: the clamped next value of cell [(x, y)]. *)
Definition stencil (W H : Z) (a : list number) (x y : Z) : number :=
  let row := y * W in
  let rowUp := if 0 <? y then row - W else row in
  let rowDown := if y <? H - 1 then row + W else row in
  let center := acc_at a (row + x) in
  let up := acc_at a (rowUp + x) in
  let down := acc_at a (rowDown + x) in
  let left := acc_at a (row + (if 0 <? x then x - 1 else x)) in
  let right := acc_at a (row + (if x <? W - 1 then x + 1 else x)) in
  let laplacian := (up + down + left + right - of_Z 4 * center)%num in
  let next := (center + DIFFUSIVITY * laplacian)%num in
  Math_max (of_Z 0) (Math_min (of_Z 100) next).

(** Line 86: the integer published for cell [i]. *)
Definition publish (b : list number) (i : nat) : Z :=
  to_byte (Math_max (of_Z 0) (Math_min (of_Z 100) (Math_round (acc b i)))).

(** Lines 58-91, from the buffers [ensureBuffers] leaves: reconcile,
    diffuse from [stateA] into [stateB], publish, swap. *)
Definition diffuse (W H : Z) (temp : list Z) (a0 b0 : list number) : state :=
  let size := W * H in
  let a := reconcile size temp a0 in
  let b := foldl (paint (λ c, cell_index W c.1 c.2)
                    (λ c, fround (stencil W H a c.1 c.2)))
             b0 (row_major W H) in
  let t := foldl (paint id (publish b)) temp (seq 0 (Z.to_nat size)) in
  State W H t (Some b) (Some a).

(** One frame.  A buffer that is still [null] after [ensureBuffers] makes
    the first access throw. *)
Definition updateGrid (st : state) : option state :=
  let W := GRID_W st in
  let H := GRID_H st in
  bufs ← ensureBuffers (W * H) st;
  match bufs with
  | (Some a0, Some b0) => Some (diffuse W H (temp st) a0 b0)
  | _ => None
  end.

(** The host replaces the grid; the accumulators stay as they are. *)
Definition host_write (g : field) (st : state) : state :=
  State (width g) (height g) (cells g) (stateA st) (stateB st).

(** A frame sequence: before each frame the host may replace the grid. *)
Fixpoint run (edits : list (option field)) (st : state) : option state :=
  match edits with
  | [] => Some st
  | e :: rest =>
      st' ← updateGrid (from_option (λ g, host_write g st) st e);
      run rest st'
  end.

(** A number of the closed interval from 0 to 100. *)
Definition acc_ok (x : number) : bool := leb (of_Z 0) x && leb x (of_Z 100).

(** The two buffers are allocated together and hold numbers of [0, 100]. *)
Definition buffers_ok (a b : option (list number)) : Prop :=
  match a, b with
  | None, None => True
  | Some a, Some b =>
      length a = length b ∧
      Forall (λ v, acc_ok v = true) a ∧ Forall (λ v, acc_ok v = true) b
  | _, _ => False
  end.

(** A state as the host and earlier frames leave it. *)
Definition well_formed (st : state) : Prop :=
  1 <= GRID_W st ∧ 1 <= GRID_H st ∧
  Z.of_nat (length (temp st)) = GRID_W st * GRID_H st ∧
  Forall in_range (temp st) ∧
  buffers_ok (stateA st) (stateB st).

(** The accumulator value after the reconciliation of cell [i]. *)
Definition reconciled (temp : list Z) (a : list number) (i : nat) : number :=
  if strict_neq (field_at temp i) (Math_round (acc a i))
  then fround (field_at temp i)
  else acc a i.

End LaplacianStencil.

(** * Arrays and grids *)

(** ** Loops that write one array cell per iteration *)

Section Paint.
Context {C V : Type} (slot : C → nat) (value : C → V).

#[local] Abbreviation put := (paint slot value).

Lemma length_foldl_paint (L : list C) (t : list V) :
  length (foldl put t L) = length t.
Proof.
  revert t. induction L as [|c L IH]; intros t; [done|].
  cbn. rewrite IH. apply length_insert.
Qed.

Lemma foldl_paint_miss (L : list C) (t : list V) (i : nat) :
  (∀ c, c ∈ L → slot c ≠ i) → foldl put t L !! i = t !! i.
Proof.
  revert t. induction L as [|c L IH]; intros t Hmiss; [done|].
  cbn. rewrite IH.
  - apply list_lookup_insert_ne, Hmiss. left.
  - intros c' Hc'. apply Hmiss. by right.
Qed.

Lemma foldl_paint_hit (L : list C) (t : list V) (c : C) :
  c ∈ L → (∀ c', c' ∈ L → slot c' = slot c → value c' = value c) →
  (slot c < length t)%nat →
  foldl put t L !! slot c = Some (value c).
Proof.
  induction L as [|a L IH] using rev_ind; intros Hin Hsame Hlt.
  - by apply elem_of_nil in Hin.
  - rewrite foldl_snoc. unfold paint at 1.
    destruct (decide (slot a = slot c)) as [Heq|Hne].
    + rewrite Heq, list_lookup_insert_eq
        by (by rewrite length_foldl_paint).
      f_equal. apply Hsame; [|done]. apply elem_of_app. right. left.
    + rewrite list_lookup_insert_ne by done.
      apply IH; [|intros c' Hc'; apply Hsame, elem_of_app; by left|done].
      apply elem_of_app in Hin as [Hin|Hin]; [done|].
      apply list_elem_of_singleton in Hin. by subst.
Qed.

(** Writes to distinct slots commute, so only the set of cells visited
    matters, not the order. *)
Lemma foldl_paint_perm (L L' : list C) (t : list V) :
  L ≡ₚ L' →
  (∀ c c', c ∈ L → c' ∈ L → slot c = slot c' → value c = value c') →
  foldl put t L = foldl put t L'.
Proof.
  intros HP. revert t.
  induction HP as [|x L L' HP IH|x y L|L L' L'' HP IH HP' IH'];
    intros t Hsame.
  - done.
  - cbn. apply IH. intros c c' Hc Hc'. apply Hsame; by right.
  - cbn. f_equal. unfold paint.
    destruct (decide (slot x = slot y)) as [Heq|Hne].
    + rewrite (Hsame x y), Heq; [done| |  |done].
      * right; left.
      * left.
    + apply list_insert_insert_ne; congruence.
  - rewrite IH by done. apply IH'.
    intros c c' Hc Hc'. apply Hsame; by rewrite HP.
Qed.

End Paint.

(** Checking a decidable property on every integer of a range. *)
Lemma forall_range (P : Z → bool) (lo n : Z) :
  forallb P (seqZ lo n) = true → ∀ z, lo <= z < lo + n → P z = true.
Proof.
  intros Hall z Hz. rewrite forallb_forall in Hall.
  apply Hall, list_elem_of_In, elem_of_seqZ. lia.
Qed.

(** ** The grid and its row-major indexing *)

Section Grid.
Variables W H : Z.

#[local] Abbreviation inside := (on_grid W H).

Lemma elem_of_row_major (c : Z * Z) : c ∈ row_major W H ↔ inside c.
Proof.
  unfold row_major, on_grid. destruct c as [x y]. cbn.
  rewrite list_elem_of_bind. split.
  - intros (y' & Hx & Hy). apply list_elem_of_bind in Hx as (x' & Hc & Hx).
    apply list_elem_of_singleton in Hc. injection Hc as -> ->.
    apply elem_of_seqZ in Hx, Hy. lia.
  - intros [Hx Hy]. exists y. split; [|apply elem_of_seqZ; lia].
    apply list_elem_of_bind. exists x. split; [left|apply elem_of_seqZ; lia].
Qed.

Lemma cell_index_lt (c : Z * Z) :
  inside c → (cell_index W c.1 c.2 < Z.to_nat (W * H))%nat.
Proof. unfold on_grid, cell_index. intros [Hx Hy]. nia. Qed.

Lemma cell_index_inj (c c' : Z * Z) :
  inside c → inside c' →
  cell_index W c.1 c.2 = cell_index W c'.1 c'.2 → c = c'.
Proof.
  unfold on_grid, cell_index. destruct c as [x y], c' as [x' y']. cbn.
  intros [Hx Hy] [Hx' Hy'] Heq.
  assert (y * W + x = y' * W + x') as Hz by nia.
  assert (y = y') by nia. subst. f_equal. lia.
Qed.

Lemma cell_index_surj (i : nat) :
  0 < W → (i < Z.to_nat (W * H))%nat →
  ∃ c, inside c ∧ cell_index W c.1 c.2 = i.
Proof.
  intros HW Hi.
  exists (Z.of_nat i mod W, Z.of_nat i / W). unfold on_grid, cell_index. cbn.
  pose proof (Z.mod_pos_bound (Z.of_nat i) W HW).
  pose proof (Z.div_mod (Z.of_nat i) W ltac:(lia)).
  assert (0 <= Z.of_nat i / W) by (apply Z.div_pos; lia).
  repeat split; try lia.
  apply Z.div_lt_upper_bound; [done|]. nia.
Qed.

End Grid.

(** * Properties of Variant A *)

Section TransferFacts.
Import NeighbourTransfer.

(** [Math.round(diff * 0.25)] in integer terms. *)
Lemma Math_round_quarter (d : Z) :
  Math_round (inject_Z d * FLOW_RATE) = (d + 2) / 4.
Proof.
  change ((d * 1 * 2 + 1 * 4) / (4 * 2) = (d + 2) / 4).
  replace (d * 1 * 2 + 1 * 4) with ((d + 2) * 2) by lia.
  apply Z.div_mul_cancel_r; lia.
Qed.

(** [Math.trunc(diff / 2)] in integer terms. *)
Lemma Math_trunc_half (d : Z) : Math_trunc (inject_Z d / 2) = Z.quot d 2.
Proof.
  unfold Math_trunc, Qle_bool, Qceiling, Qfloor, Qdiv, Qmult, Qinv, Qopp,
    inject_Z; cbn.
  change (Z.pos (1 * 2)) with 2. rewrite ?Z.mul_1_r, Z.mul_0_l.
  destruct (Z.leb_spec 0 d) as [Hd|Hd].
  - symmetry. apply Z.quot_div_nonneg; lia.
  - rewrite <- (Z.opp_involutive d) at 2.
    rewrite Z.quot_opp_l by lia.
    rewrite Z.quot_div_nonneg by lia. reflexivity.
Qed.

Lemma transfer_eq (d : Z) :
  transfer d =
    if 0 <? d then Z.max 0 (Z.min ((d + 2) / 4) (Z.quot d 2))
    else Z.min 0 (Z.max ((d + 2) / 4) (Z.quot d 2)).
Proof. unfold transfer. rewrite Math_round_quarter, Math_trunc_half. done. Qed.

Lemma transfer_0 : transfer 0 = 0.
Proof. reflexivity. Qed.

(** Heat flowing in is at most half the difference. *)
Lemma transfer_pos (d : Z) : 0 < d → 0 <= transfer d /\ 2 * transfer d <= d.
Proof.
  intros Hd. rewrite transfer_eq.
  destruct (Z.ltb_spec 0 d); [|lia].
  pose proof (Z.quot_div_nonneg d 2 ltac:(lia) ltac:(lia)) as Hq.
  pose proof (Z.mul_div_le d 2 ltac:(lia)). lia.
Qed.

(** Heat flowing out is at most half the difference, too. *)
Lemma transfer_neg (d : Z) : d < 0 → transfer d <= 0 /\ d <= 2 * transfer d.
Proof.
  intros Hd. rewrite transfer_eq.
  destruct (Z.ltb_spec 0 d); [lia|].
  assert (Hq : Z.quot d 2 = - ((- d) / 2)).
  { rewrite <- (Z.opp_involutive d) at 1.
    rewrite Z.quot_opp_l by lia. rewrite Z.quot_div_nonneg by lia. done. }
  pose proof (Z.mul_div_le (- d) 2 ltac:(lia)). lia.
Qed.

End TransferFacts.

(** ** One frame of Variant A *)

Section StepA.
Import NeighbourTransfer.

Lemma to_uint8_in_range (l : list Z) :
  Forall in_range l → to_uint8 <$> l = l.
Proof.
  induction 1 as [|v l Hv _ IH]; [done|].
  cbn. rewrite IH. f_equal. apply Z.mod_small. unfold in_range in Hv. lia.
Qed.

Lemma length_ensure_snapshot (size : Z) (buf : option (list Z)) :
  length (ensure_snapshot size buf) = Z.to_nat size.
Proof.
  unfold ensure_snapshot. destruct buf as [b|]; [case_decide|];
    rewrite ?length_replicate; lia.
Qed.

(** On a well-formed state the frame does not throw, the snapshot is the
    field at entry, and the live array is the fold of the cell writes. *)
Lemma updateGrid_in_eq (order : list (Z * Z)) (st : state) :
  well_formed st →
  updateGrid_in order st =
    Some (State (GRID_W st) (GRID_H st)
            (foldl (visit (GRID_W st) (GRID_H st) (to_uint8 <$> temp st))
               (temp st) order)
            (Some (to_uint8 <$> temp st))).
Proof.
  intros (HW & HH & Hlen). unfold updateGrid_in.
  destruct (Z.ltb_spec (GRID_W st * GRID_H st) 0) as [|_]; [nia|].
  unfold set_from. rewrite length_ensure_snapshot.
  case_decide; [|lia]. cbn.
  rewrite drop_ge, app_nil_r by (rewrite length_ensure_snapshot; lia).
  done.
Qed.

(** Every cell of the new field is the value the kernel computes for it
    from the snapshot. *)
Lemma updateGrid_lookup (st st' : state) (c : Z * Z) :
  well_formed st → updateGrid st = Some st' →
  on_grid (GRID_W st) (GRID_H st) c →
  temp st' !! cell_index (GRID_W st) c.1 c.2 =
    Some (new_temp (GRID_W st) (GRID_H st) (to_uint8 <$> temp st) c.1 c.2).
Proof.
  intros Hwf Hstep Hc. unfold updateGrid in Hstep.
  rewrite updateGrid_in_eq in Hstep by done. injection Hstep as <-. cbn.
  destruct Hwf as (HW & HH & Hlen).
  apply (foldl_paint_hit (λ c, cell_index (GRID_W st) c.1 c.2)
           (λ c, new_temp (GRID_W st) (GRID_H st) (to_uint8 <$> temp st)
                   c.1 c.2)).
  - by apply elem_of_row_major.
  - intros c' Hc' Heq. apply elem_of_row_major in Hc'.
    by rewrite (cell_index_inj _ _ c' c Hc' Hc Heq).
  - pose proof (cell_index_lt _ _ c Hc). lia.
Qed.

Lemma updateGrid_shape (st st' : state) :
  well_formed st → updateGrid st = Some st' →
  GRID_W st' = GRID_W st ∧ GRID_H st' = GRID_H st ∧
  length (temp st') = length (temp st) ∧
  oldTemp st' = Some (to_uint8 <$> temp st).
Proof.
  intros Hwf Hstep. unfold updateGrid in Hstep.
  rewrite updateGrid_in_eq in Hstep by done. injection Hstep as <-. cbn.
  repeat split.
  apply (length_foldl_paint (λ c, cell_index (GRID_W st) c.1 c.2)).
Qed.

Lemma updateGrid_well_formed (st st' : state) :
  well_formed st → updateGrid st = Some st' → well_formed st'.
Proof.
  intros Hwf Hstep.
  destruct (updateGrid_shape st st' Hwf Hstep) as (HW & HH & Hlen & _).
  unfold well_formed in *. rewrite HW, HH, Hlen. done.
Qed.

Lemma new_temp_in_range (W H : Z) (old : list Z) (x y : Z) :
  in_range (new_temp W H old x y).
Proof. unfold new_temp, in_range. lia. Qed.

(** The range invariant of one Variant A frame. *)
Lemma updateGrid_range (st st' : state) :
  well_formed st → updateGrid st = Some st' → Forall in_range (temp st').
Proof.
  intros Hwf Hstep. apply Forall_lookup. intros i v Hi.
  destruct (updateGrid_shape st st' Hwf Hstep) as (_ & _ & Hlen & _).
  pose proof (lookup_lt_Some _ _ _ Hi) as Hlt.
  destruct Hwf as (HW & HH & Hsz).
  destruct (cell_index_surj (GRID_W st) (GRID_H st) i) as (c & Hc & <-);
    [lia|lia|].
  rewrite (updateGrid_lookup st st' c) in Hi by done.
  injection Hi as <-. apply new_temp_in_range.
Qed.

(** Frame sequences: the host's writes and the frames keep the state
    well formed and the field in range. *)
Lemma run_range (edits : list (option field)) (st : state) :
  well_formed st → Forall in_range (temp st) →
  Forall (from_option field_ok True) edits →
  ∃ st', run edits st = Some st' ∧ well_formed st' ∧
         Forall in_range (temp st').
Proof.
  revert st. induction edits as [|e edits IH]; intros st Hwf Hr He.
  - by exists st.
  - apply Forall_cons in He as [He Hes]. cbn [run].
    set (st1 := from_option (λ g, host_write g st) st e).
    assert (well_formed st1) as Hwf1.
    { destruct e as [g|]; [|done]. destruct He as (? & ? & ? & _). done. }
    destruct (updateGrid st1) as [st2|] eqn:Hstep.
    2:{ unfold updateGrid in Hstep. by rewrite updateGrid_in_eq in Hstep. }
    cbn. apply IH; [|by eapply updateGrid_range|done].
    by eapply updateGrid_well_formed.
Qed.

End StepA.

(** ** Neighbours, uniform fields and two-cell grids *)

Section NeighboursA.
Import NeighbourTransfer.
Variables W H : Z.

Lemma neighbour_step_out (old : list Z) (x y cellTemp delta : Z) (d : Z * Z) :
  ¬ on_grid W H (x + d.1, y + d.2) →
  neighbour_step W H old x y cellTemp delta d = delta.
Proof.
  unfold on_grid, neighbour_step. cbn. intros Hout.
  destruct (Z.ltb_spec (x + d.1) 0), (Z.geb_spec (x + d.1) W),
    (Z.ltb_spec (y + d.2) 0), (Z.geb_spec (y + d.2) H); cbn; try done.
  lia.
Qed.

Lemma neighbour_step_in (old : list Z) (x y cellTemp delta : Z) (d : Z * Z) :
  on_grid W H (x + d.1, y + d.2) →
  neighbour_step W H old x y cellTemp delta d =
    delta + transfer (read old (cell_index W (x + d.1) (y + d.2)) - cellTemp).
Proof.
  unfold on_grid, neighbour_step. cbn. intros Hin.
  destruct (Z.ltb_spec (x + d.1) 0), (Z.geb_spec (x + d.1) W),
    (Z.ltb_spec (y + d.2) 0), (Z.geb_spec (y + d.2) H); cbn; try lia.
  destruct (Z.eqb_spec (read old (cell_index W (x + d.1) (y + d.2)) - cellTemp) 0)
    as [->|_]; [rewrite transfer_0; lia|done].
Qed.

(** On a uniform snapshot no neighbour contributes. *)
Lemma neighbour_step_uniform (v x y delta : Z) (d : Z * Z) :
  neighbour_step W H (replicate (Z.to_nat (W * H)) v) x y v delta d = delta.
Proof.
  destruct (decide (on_grid W H (x + d.1, y + d.2))) as [Hin|Hout].
  - rewrite neighbour_step_in by done.
    pose proof (cell_index_lt W H _ Hin) as Hlt. cbn in Hlt.
    unfold read. rewrite lookup_total_replicate_2 by done.
    rewrite Z.sub_diag, transfer_0. lia.
  - by apply neighbour_step_out.
Qed.

Lemma new_temp_uniform (v x y : Z) :
  in_range v → on_grid W H (x, y) →
  new_temp W H (replicate (Z.to_nat (W * H)) v) x y = v.
Proof.
  intros Hv Hc. unfold new_temp.
  pose proof (cell_index_lt W H _ Hc) as Hlt. cbn in Hlt.
  unfold read at 2. unfold read at 1.
  rewrite lookup_total_replicate_2 by done.
  unfold NEIGHBOURS. cbn [foldl]. rewrite !neighbour_step_uniform.
  unfold in_range in Hv. lia.
Qed.

End NeighboursA.

Section UniformA.
Import NeighbourTransfer.

(** One frame leaves a uniform field as it is. *)
Lemma updateGrid_uniform (W H v : Z) (old : option (list Z)) :
  1 <= W → 1 <= H → in_range v →
  ∃ old', updateGrid (State W H (replicate (Z.to_nat (W * H)) v) old)
          = Some (State W H (replicate (Z.to_nat (W * H)) v) old').
Proof.
  intros HW HH Hv.
  set (st := State W H (replicate (Z.to_nat (W * H)) v) old).
  assert (Hwf : well_formed st).
  { unfold well_formed, st. cbn. rewrite length_replicate. nia. }
  assert (Hsnap : to_uint8 <$> temp st = temp st).
  { apply to_uint8_in_range. unfold st. cbn. by apply Forall_replicate. }
  destruct (updateGrid st) as [st'|] eqn:Hstep.
  2:{ unfold updateGrid in Hstep. by rewrite updateGrid_in_eq in Hstep. }
  destruct (updateGrid_shape st st' Hwf Hstep) as (HW' & HH' & Hlen & Hold).
  exists (oldTemp st'). f_equal. destruct st' as [W' H' t' o']. cbn in *.
  subst W' H'. f_equal.
  apply list_eq. intros i.
  destruct (decide (i < Z.to_nat (W * H))%nat) as [Hi|Hi].
  - destruct (cell_index_surj W H i) as (c & Hc & <-); [lia|done|].
    pose proof (updateGrid_lookup st _ c Hwf Hstep Hc) as Hl. cbn in Hl.
    rewrite Hl, Hsnap. unfold st. cbn.
    rewrite new_temp_uniform by (done || by destruct c).
    by rewrite lookup_replicate_2.
  - rewrite !lookup_ge_None_2; [done| |]; rewrite ?Hlen, length_replicate; lia.
Qed.

End UniformA.

(** * Rounding in binary floating point

    What the kernel needs of [SpecFloat]'s rounding: it never yields NaN,
    and it never crosses a bound that the target format represents. *)

Section RoundingFacts.
Import Number.

Lemma digits2_pos_size (m : positive) : digits2_pos m = Pos.size m.
Proof. induction m as [m IH|m IH|]; cbn; by rewrite ?IH. Qed.

(** The mantissa lies between the powers of two its digit count names. *)
Lemma digits2_bounds (m : positive) :
  2 ^ (Z.pos (digits2_pos m) - 1) <= Z.pos m < 2 ^ Z.pos (digits2_pos m).
Proof.
  rewrite digits2_pos_size. split.
  - pose proof (Pos.size_le m) as Hle.
    assert (2 ^ Z.pos (Pos.size m) <= 2 * Z.pos m) as H2.
    { change (2 * Z.pos m) with (Z.pos m~0). rewrite <- Pos2Z.inj_pow. lia. }
    replace (Z.pos (Pos.size m)) with (Z.pos (Pos.size m) - 1 + 1) in H2 by lia.
    rewrite Z.pow_add_r in H2 by lia. lia.
  - pose proof (Pos.size_gt m) as Hgt. rewrite <- Pos2Z.inj_pow. lia.
Qed.

Lemma shr_1_eq (m : Z) (r s : bool) :
  0 <= m →
  shr_1 (Build_shr_record m r s) = Build_shr_record (m / 2) (Z.odd m) (r || s).
Proof.
  intros Hm. rewrite <- Z.div2_div.
  destruct m as [|[p|p|]|]; try done; lia.
Qed.

Lemma iter_shr_1 (p : positive) (m : Z) (r s : bool) :
  0 <= m →
  let rec' := SpecFloat.iter_pos shr_1 p (Build_shr_record m r s) in
  shr_m rec' = m / 2 ^ Z.pos p ∧
  (r = false → s = false → m mod 2 ^ Z.pos p = 0 →
   shr_r rec' = false ∧ shr_s rec' = false).
Proof.
  revert m r s. induction p as [p IH|p IH|]; intros m r s Hm; cbn zeta.
  - cbn [SpecFloat.iter_pos]. rewrite shr_1_eq by done.
    assert (0 <= m / 2) as Hm1 by (apply Z.div_pos; lia).
    destruct (SpecFloat.iter_pos shr_1 p {| shr_m := m / 2; shr_r := Z.odd m; shr_s := r || s |})
      as [m2 r2 s2] eqn:E2.
    pose proof (IH (m / 2) (Z.odd m) (r || s) Hm1) as [IHa IHb].
    rewrite E2 in IHa, IHb. cbn in IHa, IHb.
    assert (0 <= m2) as Hm2 by (subst m2; apply Z.div_pos; lia).
    pose proof (IH m2 r2 s2 Hm2) as [IHc IHd].
    assert (0 < 2 ^ Z.pos p) as Hpow by (apply Z.pow_pos_nonneg; lia).
    assert (Epow : 2 ^ Z.pos p~1 = 2 * (2 ^ Z.pos p * 2 ^ Z.pos p)).
    { replace (Z.pos p~1) with (1 + (Z.pos p + Z.pos p)) by lia.
      by rewrite !Z.pow_add_r, Z.pow_1_r by lia. }
    split.
    + rewrite IHc, IHa, Epow, !Z.div_div by lia. done.
    + intros -> -> Hmod. rewrite Epow in Hmod.
      apply Z.mod_divide in Hmod as [k Hk]; [|lia].
      assert (m / 2 = k * (2 ^ Z.pos p * 2 ^ Z.pos p)) as Hhalf.
      { subst m. replace (k * (2 * (2 ^ Z.pos p * 2 ^ Z.pos p)))
          with (k * (2 ^ Z.pos p * 2 ^ Z.pos p) * 2) by lia.
        apply Z.div_mul; lia. }
      assert (Z.odd m = false) as Hodd.
      { subst m. replace (k * (2 * (2 ^ Z.pos p * 2 ^ Z.pos p)))
          with (2 * (k * (2 ^ Z.pos p * 2 ^ Z.pos p))) by lia.
        apply Z.odd_even. }
      destruct IHb as [-> ->]; [done|done| |].
      { rewrite Hhalf. replace (k * (2 ^ Z.pos p * 2 ^ Z.pos p))
          with (k * 2 ^ Z.pos p * 2 ^ Z.pos p) by lia.
        apply Z.mod_mul; lia. }
      apply IHd; [done|done|].
      rewrite IHa, Hhalf.
      replace (k * (2 ^ Z.pos p * 2 ^ Z.pos p))
          with (k * 2 ^ Z.pos p * 2 ^ Z.pos p) by lia.
      rewrite Z.div_mul by lia. apply Z.mod_mul; lia.
  - cbn [SpecFloat.iter_pos].
    destruct (SpecFloat.iter_pos shr_1 p {| shr_m := m; shr_r := r; shr_s := s |})
      as [m2 r2 s2] eqn:E2.
    pose proof (IH m r s Hm) as [IHa IHb].
    rewrite E2 in IHa, IHb. cbn in IHa, IHb.
    assert (0 <= m2) as Hm2 by (subst m2; apply Z.div_pos; lia).
    pose proof (IH m2 r2 s2 Hm2) as [IHc IHd].
    assert (0 < 2 ^ Z.pos p) as Hpow by (apply Z.pow_pos_nonneg; lia).
    assert (Epow : 2 ^ Z.pos p~0 = 2 ^ Z.pos p * 2 ^ Z.pos p).
    { replace (Z.pos p~0) with (Z.pos p + Z.pos p) by lia.
      by rewrite Z.pow_add_r by lia. }
    split.
    + rewrite IHc, IHa, Epow, !Z.div_div by lia. done.
    + intros -> -> Hmod. rewrite Epow in Hmod.
      apply Z.mod_divide in Hmod as [k Hk]; [|lia].
      destruct IHb as [-> ->]; [done|done| |].
      { subst m. replace (k * (2 ^ Z.pos p * 2 ^ Z.pos p))
          with (k * 2 ^ Z.pos p * 2 ^ Z.pos p) by lia.
        apply Z.mod_mul; lia. }
      apply IHd; [done|done|].
      rewrite IHa. subst m.
      replace (k * (2 ^ Z.pos p * 2 ^ Z.pos p))
          with (k * 2 ^ Z.pos p * 2 ^ Z.pos p) by lia.
      rewrite Z.div_mul by lia. apply Z.mod_mul; lia.
  - cbn [SpecFloat.iter_pos]. rewrite shr_1_eq by done. cbn [shr_m shr_r shr_s].
    rewrite Z.pow_1_r. split; [done|].
    intros -> -> Hmod. split; [|done].
    apply Z.mod_divide in Hmod as [k ->]; [|lia].
    rewrite Z.mul_comm. apply Z.odd_even.
Qed.

Lemma pow2_pos (k : Z) : 0 <= k → 0 < 2 ^ k.
Proof. intros. apply Z.pow_pos_nonneg; lia. Qed.

Lemma pow2_split (a c e : Z) :
  c <= e → e <= a → 2 ^ (a - c) = 2 ^ (a - e) * 2 ^ (e - c).
Proof. intros. rewrite <- Z.pow_add_r by lia. f_equal. lia. Qed.

(** Any common exponent below both serves to compare two dyadic numbers. *)
Lemma dyadic_compare_at (c m1 e1 m2 e2 : Z) :
  c <= e1 → c <= e2 →
  dyadic_compare m1 e1 m2 e2 = (m1 * 2 ^ (e1 - c) ?= m2 * 2 ^ (e2 - c)).
Proof.
  intros H1 H2. unfold dyadic_compare.
  set (e := Z.min e1 e2).
  rewrite (pow2_split e1 c e), (pow2_split e2 c e) by lia.
  rewrite !Z.mul_assoc.
  apply Zmult_compare_compat_r. pose proof (pow2_pos (e - c)). lia.
Qed.

Lemma dyadic_le_at (c m1 e1 m2 e2 : Z) :
  c <= e1 → c <= e2 →
  dyadic_le m1 e1 m2 e2 ↔ m1 * 2 ^ (e1 - c) <= m2 * 2 ^ (e2 - c).
Proof.
  intros H1 H2. unfold dyadic_le. by rewrite (dyadic_compare_at c).
Qed.

Lemma round_nearest_even_bounds (m : Z) (l : location) :
  m <= round_nearest_even m l <= m + 1 ∧
  (l = loc_Exact → round_nearest_even m l = m).
Proof.
  destruct l as [|[]]; cbn; try destruct (Z.even m); split; try done; lia.
Qed.

Lemma Zdigits2_le (m k : Z) : 0 <= m → 0 <= k → m < 2 ^ k → Zdigits2 m <= k.
Proof.
  intros Hm Hk Hlt. destruct m as [|p|p]; cbn; [done| |lia].
  pose proof (digits2_bounds p) as [Hlo _].
  apply Z.nlt_ge. intros Hgt.
  assert (2 ^ k <= 2 ^ (Z.pos (digits2_pos p) - 1))
    by (apply Z.pow_le_mono_r; lia).
  lia.
Qed.

Lemma digits2_pos_iter_xO (m d : positive) :
  digits2_pos (Pos.iter xO m d) = (digits2_pos m + d)%positive.
Proof.
  induction d as [|d IH] using Pos.peano_ind.
  - cbn. lia.
  - rewrite Pos.iter_succ. cbn. rewrite IH. lia.
Qed.

Lemma pos_iter_xO (m d : positive) :
  Z.pos (Pos.iter xO m d) = Z.pos m * 2 ^ Z.pos d.
Proof.
  induction d as [|d IH] using Pos.peano_ind.
  - cbn. lia.
  - rewrite Pos.iter_succ, Pos2Z.inj_xO, IH, Pos2Z.inj_succ.
    rewrite Z.pow_succ_r by lia. lia.
Qed.

Section Format.
Variables prec emax : Z.
Hypothesis Hprec : 0 < prec.
Hypothesis Hemax : prec < emax.

#[local] Abbreviation fexp := (fexp prec emax).
#[local] Abbreviation emin := (emin prec emax).

(** The alignment before rounding keeps the value and the position of the
    leading bit, and brings the exponent down to the target. *)
Lemma shl_align_spec (m : positive) (e e' : Z) :
  ∃ mz ez, shl_align m e e' = (mz, ez) ∧ ez = Z.min e e' ∧
    Z.pos mz = Z.pos m * 2 ^ (e - ez) ∧
    Z.pos (digits2_pos mz) + ez = Z.pos (digits2_pos m) + e.
Proof.
  unfold shl_align. destruct (e' - e) as [|d|d] eqn:Hd.
  - exists m, e. rewrite Z.sub_diag. repeat split; lia.
  - exists m, e. rewrite Z.sub_diag. repeat split; lia.
  - exists (Pos.iter xO m d), e'.
    rewrite digits2_pos_iter_xO, pos_iter_xO.
    replace (e - e') with (Z.pos d) by lia. repeat split; lia.
Qed.

Lemma shr_fexp_spec (m e : Z) (l : location) :
  0 <= m →
  ∃ rec e', shr_fexp prec emax m e l = (rec, e') ∧
    let n := Z.max (fexp (Zdigits2 m + e) - e) 0 in
    e' = e + n ∧ shr_m rec = m / 2 ^ n ∧
    (l = loc_Exact → m mod 2 ^ n = 0 → loc_of_shr_record rec = loc_Exact).
Proof.
  intros Hm. unfold shr_fexp, shr.
  destruct (fexp (Zdigits2 m + e) - e) as [|p|p] eqn:Hn.
  - eexists _, _. split; [done|]. cbn. rewrite Z.div_1_r.
    repeat split; [lia|by destruct l as [|[]]|by intros ->].
  - eexists _, _. split; [done|]. cbn zeta.
    replace (Z.max (Z.pos p) 0) with (Z.pos p) by lia.
    assert (∃ r s, shr_record_of_loc m l = Build_shr_record m r s ∧
                   (l = loc_Exact → r = false ∧ s = false))
      as (r & s & -> & Hl)
      by (destruct l as [|[]]; eexists _, _; (split; [done|done])).
    destruct (iter_shr_1 p m r s Hm) as [Hv Hx].
    repeat split; [done|].
    intros Hex Hmod. destruct (Hl Hex) as [-> ->].
    destruct (Hx eq_refl eq_refl Hmod) as [Hr Hs].
    destruct (SpecFloat.iter_pos _ _ _) as [m' r' s']. cbn in Hr, Hs.
    by subst.
  - eexists _, _. split; [done|]. cbn. rewrite Z.div_1_r.
    repeat split; [lia|by destruct l as [|[]]|by intros ->].
Qed.

(** Rounding a non-negative mantissa never gives NaN, and gives the sign
    it is asked for. *)
Lemma binary_round_aux_sign (s : bool) (m e : Z) (l : location) :
  0 <= m → rounded_sign s (binary_round_aux prec emax s m e l).
Proof.
  intros Hm. unfold binary_round_aux.
  destruct (shr_fexp_spec m e l Hm) as (rec1 & e1 & -> & _ & Hm1 & _).
  pose proof (round_nearest_even_bounds (shr_m rec1) (loc_of_shr_record rec1))
    as [[Hlo _] _].
  set (m2 := round_nearest_even _ _) in *.
  assert (0 <= m2) as Hm2.
  { rewrite Hm1 in Hlo. etrans; [|exact Hlo].
    apply Z.div_pos; [done|]. apply pow2_pos. lia. }
  destruct (shr_fexp_spec m2 e1 loc_Exact Hm2) as (rec2 & e2 & -> & _ & Hm3 & _).
  assert (0 <= shr_m rec2) as Hm3'.
  { rewrite Hm3. apply Z.div_pos; [done|]. apply pow2_pos. lia. }
  destruct (shr_m rec2); [done| |lia].
  by destruct (_ <=? _).
Qed.

Lemma binary_round_sign (s : bool) (m : positive) (e : Z) :
  rounded_sign s (binary_round prec emax s m e).
Proof.
  unfold binary_round. destruct (shl_align _ _ _) as [mz ez].
  by apply binary_round_aux_sign.
Qed.

(** Rounding never crosses a bound that the format represents: from an
    aligned mantissa, ... *)
Lemma binary_round_aux_below (s : bool) (mz : positive) (ez M E : Z) :
  let e0 := fexp (Z.pos (digits2_pos mz) + ez) in
  ez <= e0 → e0 <= E → 0 < M < 2 ^ prec → E + prec <= emax →
  Z.pos mz <= M * 2 ^ (E - e0) * 2 ^ (e0 - ez) →
  below M E s (binary_round_aux prec emax s (Z.pos mz) ez loc_Exact).
Proof.
  intros e0 Hez HE [HM0 HM] Hmax Hle. unfold binary_round_aux.
  destruct (shr_fexp_spec (Z.pos mz) ez loc_Exact ltac:(lia))
    as (rec1 & e1 & -> & He1 & Hm1 & Hx1).
  cbn [Zdigits2] in He1, Hm1, Hx1. fold e0 in He1, Hm1, Hx1.
  replace (Z.max (e0 - ez) 0) with (e0 - ez) in * by lia.
  assert (e1 = e0) as -> by lia. clear He1.
  set (K := M * 2 ^ (E - e0)) in *.
  pose proof (pow2_pos (e0 - ez) ltac:(lia)) as Hn.
  pose proof (pow2_pos (E - e0) ltac:(lia)) as HEe.
  pose proof (round_nearest_even_bounds (shr_m rec1) (loc_of_shr_record rec1))
    as [[Hlo Hhi] Hexact].
  set (m2 := round_nearest_even _ _) in *.
  assert (0 <= shr_m rec1 <= K) as [Hm1lo Hm1hi].
  { rewrite Hm1. split; [apply Z.div_pos; lia|].
    apply Z.div_le_upper_bound; lia. }
  assert (m2 <= K) as Hm2K.
  { destruct (decide (shr_m rec1 = K)) as [HeqK|]; [|lia].
    rewrite Hexact; [lia|]. apply Hx1; [done|].
    assert (Z.pos mz = K * 2 ^ (e0 - ez)) as ->; [|by apply Z.mod_mul; lia].
    pose proof (Z.mul_div_le (Z.pos mz) (2 ^ (e0 - ez)) Hn).
    rewrite <- Hm1, HeqK in *. lia. }
  assert (0 <= m2) as Hm2 by lia.
  destruct (shr_fexp_spec m2 e0 loc_Exact Hm2)
    as (rec2 & e2 & -> & He2 & Hm3 & _). cbn zeta in He2, Hm3.
  set (j := Z.max (fexp (Zdigits2 m2 + e0) - e0) 0) in *.
  pose proof (pow2_pos j ltac:(lia)) as Hj.
  assert (shr_m rec2 * 2 ^ j <= m2) as Hm3le.
  { rewrite Hm3, Z.mul_comm. by apply Z.mul_div_le. }
  assert (0 <= shr_m rec2) as Hm3nn by (rewrite Hm3; apply Z.div_pos; lia).
  destruct (shr_m rec2) as [|m3|m3] eqn:Em3; [done| |lia].
  assert (K < 2 ^ (prec + (E - e0))) as HK.
  { rewrite Z.pow_add_r by lia. unfold K. nia. }
  assert (e2 <= emax - prec) as Hfin.
  { assert (Zdigits2 m2 <= prec + (E - e0)) as Hd
      by (apply Zdigits2_le; lia).
    unfold j, SpecFloat.fexp, SpecFloat.emin in He2. lia. }
  destruct (Z.leb_spec e2 (emax - prec)); [|lia].
  split; [done|].
  apply (dyadic_le_at e0); [lia|lia|].
  replace (e2 - e0) with j by lia. fold K. nia.
Qed.

(** ... and so from any mantissa. *)
Lemma binary_round_below (s : bool) (m : positive) (e M E : Z) :
  0 < M < 2 ^ prec → emin <= E → E + prec <= emax →
  dyadic_le (Z.pos m) e M E →
  below M E s (binary_round prec emax s m e).
Proof.
  intros HM HE Hmax Hle. unfold binary_round.
  destruct (shl_align_spec m e (fexp (Z.pos (digits2_pos m) + e)))
    as (mz & ez & -> & Hez & Hmz & Hdig).
  remember (fexp (Z.pos (digits2_pos m) + e)) as e0 eqn:Ee0.
  assert (fexp (Z.pos (digits2_pos mz) + ez) = e0) as He0
    by (rewrite Ee0; f_equal; lia).
  pose proof (digits2_bounds mz) as [Hdlo _].
  set (d := Z.pos (digits2_pos mz)) in *.
  assert (Z.pos mz * 2 ^ (ez - Z.min ez E) <= M * 2 ^ (E - Z.min ez E))
    as Hle'.
  { apply (dyadic_le_at (Z.min ez E)) in Hle; [|lia|lia].
    rewrite Hmz, <- Z.mul_assoc, <- Z.pow_add_r by lia.
    by replace (e - ez + (ez - Z.min ez E)) with (e - Z.min ez E) by lia. }
  assert (e0 <= E) as HeE.
  { apply Z.nlt_ge. intros Hlt.
    assert (e0 = d + ez - prec) as He0'.
    { unfold SpecFloat.fexp, SpecFloat.emin in He0, HE. clear -He0 HE Hlt. lia. }
    set (c := Z.min ez E) in *.
    pose proof (pow2_pos (ez - c) ltac:(lia)).
    pose proof (pow2_pos (E - c) ltac:(lia)).
    assert (2 ^ (d - 1 + (ez - c)) <= Z.pos mz * 2 ^ (ez - c))
      by (rewrite Z.pow_add_r by lia; nia).
    assert (M * 2 ^ (E - c) < 2 ^ (prec + (E - c)))
      by (rewrite Z.pow_add_r by lia; nia).
    assert (2 ^ (prec + (E - c)) <= 2 ^ (d - 1 + (ez - c)))
      by (apply Z.pow_le_mono_r; lia).
    lia. }
  subst d. apply binary_round_aux_below; rewrite ?He0; try done; [lia|].
  rewrite <- Z.mul_assoc, <- Z.pow_add_r by lia.
  replace (E - e0 + (e0 - ez)) with (E - ez) by lia.
  replace (Z.min ez E) with ez in Hle' by lia.
  by rewrite Z.sub_diag, Z.mul_1_r in Hle'.
Qed.

End Format.

End RoundingFacts.

(** * The numbers of the stencil *)

Section NumberFacts.
Import Number LaplacianStencil.

Lemma of_Z_0 : of_Z 0 = S754_zero false.
Proof. reflexivity. Qed.

Lemma of_Z_4 : of_Z 4 = S754_finite false 4503599627370496 (-50).
Proof. vm_compute. reflexivity. Qed.

Lemma of_Z_100 : of_Z 100 = S754_finite false 7036874417766400 (-46).
Proof. vm_compute. reflexivity. Qed.

Lemma dyadic_compare_antisym (m1 e1 m2 e2 : Z) :
  dyadic_compare m2 e2 m1 e1 = CompOpp (dyadic_compare m1 e1 m2 e2).
Proof.
  unfold dyadic_compare. rewrite (Z.min_comm e2 e1). apply Z.compare_antisym.
Qed.

Lemma dyadic_compare_refl (m e : Z) : dyadic_compare m e m e = Eq.
Proof. unfold dyadic_compare. apply Z.compare_refl. Qed.

(** The binary64 mantissa and exponent of 100 name the bound [25 * 2^2]. *)
Lemma dyadic_le_100 (m e : Z) :
  dyadic_le m e 7036874417766400 (-46) ↔ dyadic_le m e 25 2.
Proof.
  rewrite (dyadic_le_at (Z.min e (-46)) m e _ (-46)) by lia.
  rewrite (dyadic_le_at (Z.min e (-46)) m e _ 2) by lia.
  set (c := Z.min e (-46)).
  replace (2 - c) with (48 + (-46 - c)) by lia.
  rewrite Z.pow_add_r by lia.
  change (2 ^ 48) with 281474976710656. lia.
Qed.

Lemma dyadic_le_weaken (m e M E M' E' : Z) :
  0 <= m → dyadic_le M E M' E' → dyadic_le m e M E → dyadic_le m e M' E'.
Proof.
  intros Hm HM Hle.
  set (c := Z.min e (Z.min E E')).
  apply (dyadic_le_at c) in HM; [|lia|lia].
  apply (dyadic_le_at c) in Hle; [|lia|lia].
  apply (dyadic_le_at c); [lia|lia|]. lia.
Qed.

Lemma within_weaken (M E M' E' : Z) (x : number) :
  dyadic_le M E M' E' → within M E x → within M' E' x.
Proof.
  intros HM. destruct x as [| | |[] m e]; cbn; try done.
  by apply dyadic_le_weaken.
Qed.

Lemma within_finite (M E : Z) (x : number) : within M E x → is_finite x.
Proof. by destruct x as [| | |[] m e]. Qed.

Lemma below_within (M E : Z) (x : number) : below M E false x → within M E x.
Proof. destruct x as [| | |s m e]; cbn; try done. by intros [-> ?]. Qed.

(** [acc_ok] says what it should: zero, or positive and at most 100. *)
Lemma acc_ok_within (x : number) : acc_ok x = true ↔ within 25 2 x.
Proof.
  unfold acc_ok. rewrite of_Z_0, of_Z_100.
  destruct x as [s|[]| |[] m e]; cbv [leb compare signed cond_Zopp andb within];
    try done.
  rewrite <- dyadic_le_100. unfold dyadic_le.
  by destruct (dyadic_compare _ _ _ _).
Qed.

(** *** Sums stay finite, and nothing turns into NaN *)

(** The sum of two numbers of [0, 2^k] is a number of [0, 2^(k+1)]. *)
Lemma add_within (k : Z) (x y : number) :
  -1074 <= k → k + 54 <= 1024 →
  within 1 k x → within 1 k y → within 1 (k + 1) (x + y)%num.
Proof.
  intros Hk Hk' Hx Hy.
  assert (dyadic_le 1 k 1 (k + 1)) as Hmono.
  { apply (dyadic_le_at k); [lia|lia|].
    replace (k + 1 - k) with 1 by lia. rewrite Z.sub_diag. lia. }
  destruct x as [sx| | |[] mx ex], y as [sy| | |[] my ey]; try done.
  - by destruct sx, sy.
  - by apply (within_weaken 1 k).
  - by apply (within_weaken 1 k).
  - cbn in Hx, Hy. unfold add, SFadd. cbv [cond_Zopp].
    set (ez := Z.min ex ey).
    destruct (shl_align_spec mx ex ez) as (ax & ea & -> & Hea & Hax & _).
    destruct (shl_align_spec my ey ez) as (ay & eb & -> & Heb & Hay & _).
    cbn [fst]. change (Z.pos ax + Z.pos ay) with (Z.pos (ax + ay)).
    cbn [binary_normalize]. apply below_within.
    apply binary_round_below; [lia|lia|lia|unfold emin; lia|lia|].
    set (c := Z.min ez k).
    apply (dyadic_le_at c) in Hx; [|lia|lia].
    apply (dyadic_le_at c) in Hy; [|lia|lia].
    apply (dyadic_le_at c); [lia|lia|].
    rewrite Pos2Z.inj_add, Hax, Hay, Z.mul_add_distr_r.
    rewrite <- !Z.mul_assoc, <- !Z.pow_add_r by lia.
    replace (ex - ea + (ez - c)) with (ex - c) by lia.
    replace (ey - eb + (ez - c)) with (ey - c) by lia.
    replace (k + 1 - c) with (1 + (k - c)) by lia.
    rewrite Z.pow_add_r, Z.pow_1_r by lia. lia.
Qed.

Lemma binary_normalize_sign (m e : Z) :
  binary_normalize 53 1024 m e false ≠ NaN.
Proof.
  destruct m as [|p|p]; cbn [binary_normalize]; [done| |].
  - pose proof (binary_round_sign 53 1024 false p e) as Hs.
    by destruct (binary_round _ _ _ _ _).
  - pose proof (binary_round_sign 53 1024 true p e) as Hs.
    by destruct (binary_round _ _ _ _ _).
Qed.

Lemma add_defined (x y : number) : is_finite x → y ≠ NaN → (x + y)%num ≠ NaN.
Proof.
  destruct x as [sx| | |sx mx ex], y as [sy|sy| |sy my ey]; try done.
  - by destruct sx, sy.
  - intros _ _. apply binary_normalize_sign.
Qed.

Lemma sub_defined (x y : number) : is_finite x → y ≠ NaN → (x - y)%num ≠ NaN.
Proof.
  destruct x as [sx| | |sx mx ex], y as [sy|sy| |sy my ey]; try done.
  - by destruct sx, sy.
  - intros _ _. apply binary_normalize_sign.
Qed.

(** A product with a finite non-zero constant. *)
Lemma mul_defined (s : bool) (m : positive) (e : Z) (y : number) :
  y ≠ NaN → (S754_finite s m e * y)%num ≠ NaN.
Proof.
  destruct y as [sy|sy| |sy my ey]; try done.
  intros _. unfold mul, SFmul.
  pose proof (binary_round_aux_sign 53 1024 (xorb s sy)
                (Z.pos (m * my)) (e + ey) loc_Exact ltac:(lia)) as Hs.
  by destruct (binary_round_aux _ _ _ _ _ _).
Qed.

(** *** The clamp to [0, 100] *)

Lemma clamp_ok (v : number) :
  v ≠ NaN → acc_ok (Math_max (of_Z 0) (Math_min (of_Z 100) v)) = true.
Proof.
  intros Hv. rewrite of_Z_0, of_Z_100.
  destruct v as [s|[]| |[] m e]; try done.
  - cbv [Math_min Math_max compare is_neg_zero signed cond_Zopp].
    by destruct (dyadic_compare _ _ _ _).
  - cbv [Math_min Math_max compare is_neg_zero signed cond_Zopp].
    pose proof (dyadic_compare_antisym (Z.pos m) e 7036874417766400 (-46))
      as Ha.
    destruct (dyadic_compare 7036874417766400 (-46) (Z.pos m) e); try done;
      apply acc_ok_within, dyadic_le_100; unfold dyadic_le;
      destruct (dyadic_compare (Z.pos m) e _ _); done.
Qed.

(** *** The store into the accumulator *)

Lemma fround_ok (x : number) : acc_ok x = true → acc_ok (fround x) = true.
Proof.
  rewrite !acc_ok_within.
  destruct x as [s| | |[] m e]; try done. cbn. intros Hle.
  apply below_within, binary_round_below; try done; unfold emin; lia.
Qed.

(** *** Rounding to the published integer *)

Lemma round_half_up_bounds (m e : Z) :
  0 <= m → dyadic_le m e 25 2 → 0 <= round_half_up m e <= 100.
Proof.
  intros Hm Hle. unfold round_half_up.
  destruct (Z.leb_spec 0 e) as [He|He].
  - apply (dyadic_le_at 0) in Hle; [|lia|lia].
    rewrite !Z.sub_0_r in Hle. change (25 * 2 ^ 2) with 100 in Hle.
    pose proof (pow2_pos e He). nia.
  - apply (dyadic_le_at e) in Hle; [|lia|lia].
    rewrite Z.sub_diag, Z.mul_1_r in Hle.
    replace (2 - e) with (2 + (- e)) in Hle by lia.
    rewrite Z.pow_add_r in Hle by lia. change (2 ^ 2) with 4 in Hle.
    pose proof (pow2_pos (- e - 1) ltac:(lia)) as Hh.
    assert (2 ^ (- e) = 2 * 2 ^ (- e - 1)) as Hk.
    { rewrite <- (Z.pow_succ_r 2) by lia. f_equal. lia. }
    split.
    + apply Z.div_pos; lia.
    + apply Z.lt_succ_r, Z.div_lt_upper_bound; lia.
Qed.

(** The integers of the legal range go through the clamp, the byte store
    and the comparison of the reconciliation pass unchanged. *)
Lemma publish_integer (n : Z) :
  0 <= n <= 100 →
  to_byte (Math_max (of_Z 0) (Math_min (of_Z 100) (of_Z n))) = n ∧
  strict_neq (of_Z n) (of_Z n) = false.
Proof.
  intros Hn.
  pose proof (forall_range
    (λ n, (to_byte (Math_max (of_Z 0) (Math_min (of_Z 100) (of_Z n))) =? n)
          && negb (strict_neq (of_Z n) (of_Z n))) 0 101) as Hall.
  cbv beta in Hall. specialize (Hall ltac:(vm_compute; reflexivity) n ltac:(lia)).
  apply andb_prop in Hall as [H1 H2].
  apply Z.eqb_eq in H1. apply negb_true_iff in H2. done.
Qed.

(** A field integer stored into an accumulator is that integer, and is in
    range when the field cell is. *)
Lemma seed_integer (z : Z) :
  0 <= z <= 255 → is_integer (fround (of_Z z)) z = true.
Proof.
  intros Hz.
  apply (forall_range (λ z, is_integer (fround (of_Z z)) z) 0 256);
    [vm_compute; reflexivity|lia].
Qed.

Lemma seed_ok (z : Z) : in_range z → acc_ok (fround (of_Z z)) = true.
Proof.
  intros Hz.
  apply (forall_range (λ z, acc_ok (fround (of_Z z))) 0 101);
    [vm_compute; reflexivity|unfold in_range in Hz; lia].
Qed.

(** What is published for an accumulator value of the legal range: an
    integer of the range, which the next reconciliation finds equal to the
    rounded accumulator. *)
Lemma publish_ok (x : number) :
  acc_ok x = true →
  let n := to_byte (Math_max (of_Z 0) (Math_min (of_Z 100) (Math_round x))) in
  in_range n ∧ strict_neq (of_Z n) (Math_round x) = false.
Proof.
  rewrite acc_ok_within. intros Hx.
  destruct x as [[]| | |[] m e]; try done.
  cbn in Hx. cbv zeta. unfold Math_round. cbv [signed cond_Zopp].
  pose proof (round_half_up_bounds (Z.pos m) e ltac:(lia) Hx) as Hn.
  destruct (Z.eqb_spec (round_half_up (Z.pos m) e) 0) as [_|_]; [done|].
  destruct (publish_integer _ Hn) as [-> Hs]. done.
Qed.

End NumberFacts.

(** ** Variant A in binary64 *)

Section TransferBinary64.
Import NeighbourTransfer.

(** The rational arithmetic of Variant A is what binary64 computes: for
    every difference of two bytes, [Math.round(diff * 0.25)] and
    [Math.trunc(diff / 2)] evaluated on numbers give the same integers. *)
Lemma transfer_arithmetic_binary64 (d : Z) :
  -255 <= d <= 255 →
  Number.is_integer
    (Number.Math_round
       (Number.mul (Number.of_Z d) (S754_finite false 4503599627370496 (-54))))
    (Math_round (inject_Z d * FLOW_RATE)) = true ∧
  Number.trunc (Number.div (Number.of_Z d) (Number.of_Z 2))
    = Math_trunc (inject_Z d / 2).
Proof.
  intros Hd.
  pose proof (forall_range
    (λ d, Number.is_integer
            (Number.Math_round
               (Number.mul (Number.of_Z d)
                  (S754_finite false 4503599627370496 (-54))))
            (Math_round (inject_Z d * FLOW_RATE))
          && (Number.trunc (Number.div (Number.of_Z d) (Number.of_Z 2))
              =? Math_trunc (inject_Z d / 2))) (-255) 511) as Hall.
  cbv beta in Hall.
  specialize (Hall ltac:(vm_compute; reflexivity) d ltac:(lia)).
  apply andb_prop in Hall as [H1 H2]. by apply Z.eqb_eq in H2.
Qed.

End TransferBinary64.

(** * One frame of Variant B *)

Section StepB.
Import Number LaplacianStencil.

#[local] Abbreviation ok := (λ v : number, acc_ok v = true).

Lemma acc_ok_defined (x : number) : acc_ok x = true → x ≠ NaN.
Proof. by intros H ->. Qed.

(** The value before the clamp is a number. *)
Lemma next_defined (center up down left right : number) :
  ok center → ok up → ok down → ok left → ok right →
  (center + DIFFUSIVITY * (up + down + left + right - of_Z 4 * center))%num
    ≠ NaN.
Proof.
  intros Hc Hu Hd Hl Hr.
  assert (dyadic_le 25 2 1 7) as H128 by (by vm_compute).
  assert (∀ v, ok v → within 1 7 v) as Hw.
  { intros v Hv. apply (within_weaken 25 2); [done|by apply acc_ok_within]. }
  pose proof (add_within 7 up down ltac:(lia) ltac:(lia) (Hw _ Hu) (Hw _ Hd))
    as H1.
  assert (within 1 (7 + 1) left) as Hl'
    by (apply (within_weaken 1 7); [by vm_compute|by apply Hw]).
  pose proof (add_within (7 + 1) _ left ltac:(lia) ltac:(lia) H1 Hl') as H2.
  assert (within 1 (7 + 1 + 1) right) as Hr'
    by (apply (within_weaken 1 7); [by vm_compute|by apply Hw]).
  pose proof (add_within (7 + 1 + 1) _ right ltac:(lia) ltac:(lia) H2 Hr')
    as H3.
  apply add_defined; [by eapply within_finite, Hw|].
  unfold DIFFUSIVITY. apply mul_defined.
  apply sub_defined; [by eapply within_finite|].
  rewrite of_Z_4. by apply mul_defined, acc_ok_defined.
Qed.

Lemma acc_at_ok (a : list number) (i : Z) :
  Forall ok a → 0 <= i < Z.of_nat (length a) → ok (acc_at a i).
Proof.
  intros Ha Hi. unfold acc_at, acc.
  destruct (Z.ltb_spec i 0); [lia|].
  destruct (lookup_lt_is_Some_2 a (Z.to_nat i) ltac:(lia)) as [v Hv].
  rewrite Hv. cbn. exact (Forall_lookup_1 _ a _ _ Ha Hv).
Qed.

(** The clamped next value of a grid cell is in range, and stays in range
    when stored. *)
Lemma stencil_ok (W H : Z) (a : list number) (x y : Z) :
  on_grid W H (x, y) → Z.of_nat (length a) = W * H → Forall ok a →
  ok (fround (stencil W H a x y)).
Proof.
  unfold on_grid. cbn. intros [Hx Hy] Hlen Ha.
  apply fround_ok. unfold stencil. cbv zeta.
  apply clamp_ok, next_defined; apply acc_at_ok; try done; rewrite Hlen;
    repeat match goal with
           | |- context [if ?b <? ?c then _ else _] =>
               destruct (Z.ltb_spec b c)
           end; nia.
Qed.

(** *** The reconciliation pass *)

Lemma reconcile_cell_lookup (t : list Z) (a : list number) (i j : nat) :
  reconcile_cell t a i !! j =
    if decide (i = j ∧ (i < length a)%nat) then Some (reconciled t a i)
    else a !! j.
Proof.
  unfold reconcile_cell, reconciled.
  destruct (strict_neq _ _).
  - rewrite list_lookup_insert. repeat case_decide; naive_solver.
  - case_decide as Hd; [|done]. destruct Hd as [<- Hlt].
    unfold acc. by destruct (lookup_lt_is_Some_2 a i Hlt) as [v ->].
Qed.

Lemma length_reconcile_cell (t : list Z) (a : list number) (i : nat) :
  length (reconcile_cell t a i) = length a.
Proof.
  unfold reconcile_cell. destruct (strict_neq _ _); [|done].
  apply length_insert.
Qed.

(** After the first [n] iterations, the cells below [n] are reconciled
    against the accumulator as it was at entry, the others untouched. *)
Lemma reconcile_prefix (t : list Z) (a : list number) (n : nat) :
  let a' := foldl (reconcile_cell t) a (seq 0 n) in
  length a' = length a ∧
  ∀ j, a' !! j =
       if decide ((j < n)%nat ∧ (j < length a)%nat)
       then Some (reconciled t a j) else a !! j.
Proof.
  induction n as [|n [IHlen IH]]; cbn zeta.
  - split; [done|]. intros j. case_decide; [lia|done].
  - rewrite seq_S, foldl_snoc. cbn [Nat.add].
    set (a' := foldl (reconcile_cell t) a (seq 0 n)) in *.
    split; [by rewrite length_reconcile_cell|].
    intros j. rewrite reconcile_cell_lookup, IHlen.
    assert (reconciled t a' n = reconciled t a n) as ->.
    { unfold reconciled, acc. rewrite (IH n).
      case_decide; [lia|done]. }
    rewrite (IH j).
    destruct (decide (n = j)) as [<-|Hne];
      repeat case_decide; first [done | lia].
Qed.

Lemma length_reconcile (size : Z) (t : list Z) (a : list number) :
  length (reconcile size t a) = length a.
Proof. apply reconcile_prefix. Qed.

Lemma reconcile_lookup (size : Z) (t : list Z) (a : list number) (i : nat) :
  (i < Z.to_nat size)%nat → (i < length a)%nat →
  reconcile size t a !! i = Some (reconciled t a i).
Proof.
  intros Hi Hlt. unfold reconcile.
  destruct (reconcile_prefix t a (Z.to_nat size)) as [_ ->].
  case_decide; [done|lia].
Qed.

Lemma field_at_lookup (t : list Z) (i : nat) (z : Z) :
  t !! i = Some z → field_at t i = of_Z z.
Proof. unfold field_at. by intros ->. Qed.

Lemma reconciled_ok (t : list Z) (a : list number) (i : nat) :
  Forall in_range t → Forall ok a →
  (i < length t)%nat → (i < length a)%nat →
  ok (reconciled t a i).
Proof.
  intros Ht Ha Hit Hia. unfold reconciled.
  destruct (lookup_lt_is_Some_2 t i Hit) as [z Hz].
  destruct (lookup_lt_is_Some_2 a i Hia) as [v Hv].
  rewrite (field_at_lookup t i z Hz). unfold acc. rewrite Hv. cbn.
  destruct (strict_neq _ _).
  - apply seed_ok. exact (Forall_lookup_1 _ t _ _ Ht Hz).
  - exact (Forall_lookup_1 _ a _ _ Ha Hv).
Qed.

Lemma reconcile_ok (size : Z) (t : list Z) (a : list number) :
  Forall in_range t → Forall ok a →
  Z.of_nat (length t) = size → Z.of_nat (length a) = size →
  Forall ok (reconcile size t a).
Proof.
  intros Ht Ha Hlt Hla. apply Forall_lookup. intros i v Hi.
  pose proof (lookup_lt_Some _ _ _ Hi) as Hlen.
  rewrite length_reconcile in Hlen.
  rewrite reconcile_lookup in Hi by lia. injection Hi as <-.
  apply reconciled_ok; try done; lia.
Qed.

(** *** The buffers *)

Lemma seed_all_ok (t : list Z) (n : nat) :
  Forall in_range t → (n <= length t)%nat →
  Forall ok ((λ i, fround (field_at t i)) <$> seq 0 n).
Proof.
  intros Ht Hn. apply Forall_fmap, Forall_forall. intros i Hi. cbn.
  apply elem_of_seq in Hi.
  destruct (lookup_lt_is_Some_2 t i ltac:(lia)) as [z Hz].
  rewrite (field_at_lookup t i z Hz).
  apply seed_ok. exact (Forall_lookup_1 _ t _ _ Ht Hz).
Qed.

Lemma ensureBuffers_ok (st : state) :
  well_formed st →
  ∃ a0 b0,
    ensureBuffers (GRID_W st * GRID_H st) st = Some (Some a0, Some b0) ∧
    Z.of_nat (length a0) = GRID_W st * GRID_H st ∧
    length b0 = length a0 ∧ Forall ok a0 ∧ Forall ok b0.
Proof.
  intros (HW & HH & Hlen & Ht & Hb). unfold ensureBuffers.
  assert (∃ seed, seed = (λ i, fround (field_at (temp st) i))
                           <$> seq 0 (Z.to_nat (GRID_W st * GRID_H st)) ∧
            Z.of_nat (length seed) = GRID_W st * GRID_H st ∧ Forall ok seed)
    as (seed & Eseed & Hslen & Hsok).
  { eexists. split; [done|]. split.
    - rewrite length_fmap, length_seq. nia.
    - apply seed_all_ok; [done|lia]. }
  rewrite <- Eseed.
  destruct (Z.ltb_spec (GRID_W st * GRID_H st) 0) as [|_]; [nia|].
  unfold buffers_ok in Hb.
  destruct (stateA st) as [a|] eqn:Ea, (stateB st) as [b|] eqn:Eb; try done.
  - case_decide.
    + destruct Hb as (Hab & Ha & Hbk). by exists a, b.
    + by exists seed, seed.
  - by exists seed, seed.
Qed.

(** *** The frame *)

Section Diffuse.
Variables (W H : Z) (t : list Z) (a0 b0 : list number).
Hypothesis HW : 1 <= W.
Hypothesis HH : 1 <= H.
Hypothesis Hlen : Z.of_nat (length t) = W * H.
Hypothesis Ht : Forall in_range t.
Hypothesis Hla : Z.of_nat (length a0) = W * H.
Hypothesis Hlb : length b0 = length a0.
Hypothesis Ha : Forall ok a0.

#[local] Abbreviation a1 := (reconcile (W * H) t a0).
#[local] Abbreviation b1 :=
  (foldl (paint (λ c, cell_index W c.1 c.2)
            (λ c, fround (stencil W H a1 c.1 c.2))) b0 (row_major W H)).

Lemma diffuse_eq :
  diffuse W H t a0 b0 =
    State W H (foldl (paint id (publish b1)) t (seq 0 (Z.to_nat (W * H))))
      (Some b1) (Some a1).
Proof. reflexivity. Qed.

Lemma length_b1 : length b1 = length a0.
Proof. by rewrite length_foldl_paint. Qed.

(** Every cell of the new accumulator is the stored stencil value. *)
Lemma b1_lookup (c : Z * Z) :
  on_grid W H c →
  b1 !! cell_index W c.1 c.2 = Some (fround (stencil W H a1 c.1 c.2)).
Proof.
  intros Hc.
  apply (foldl_paint_hit (λ c, cell_index W c.1 c.2)
           (λ c, fround (stencil W H a1 c.1 c.2))).
  - by apply elem_of_row_major.
  - intros c' Hc' Heq. apply elem_of_row_major in Hc'.
    by rewrite (cell_index_inj _ _ c' c Hc' Hc Heq).
  - pose proof (cell_index_lt _ _ c Hc). lia.
Qed.

Lemma a1_ok : Forall ok a1.
Proof. by apply reconcile_ok. Qed.

Lemma b1_ok : Forall ok b1.
Proof.
  apply Forall_lookup. intros i v Hi.
  pose proof (lookup_lt_Some _ _ _ Hi) as Hlt. rewrite length_b1 in Hlt.
  destruct (cell_index_surj W H i) as (c & Hc & <-); [lia|lia|].
  rewrite b1_lookup in Hi by done. injection Hi as <-.
  apply stencil_ok; [by destruct c| |apply a1_ok].
  by rewrite length_reconcile.
Qed.

Lemma temp_lookup (i : nat) :
  (i < length t)%nat →
  temp (diffuse W H t a0 b0) !! i = Some (publish b1 i).
Proof.
  intros Hi. rewrite diffuse_eq. cbn [temp].
  apply (foldl_paint_hit id (publish b1) _ t i);
    [|intros c' _ Heq; cbv [id] in Heq; by subst|done].
  apply elem_of_seq. lia.
Qed.

Lemma length_temp : length (temp (diffuse W H t a0 b0)) = length t.
Proof. rewrite diffuse_eq. cbn [temp]. apply length_foldl_paint. Qed.

(** The published field is in range, and agrees with the rounded
    accumulator that the swap makes current. *)
Lemma temp_published (i : nat) (z : Z) :
  temp (diffuse W H t a0 b0) !! i = Some z →
  in_range z ∧ strict_neq (of_Z z) (Math_round (acc b1 i)) = false.
Proof.
  intros Hi. pose proof (lookup_lt_Some _ _ _ Hi) as Hlt.
  rewrite length_temp in Hlt. rewrite temp_lookup in Hi by done.
  injection Hi as <-. apply publish_ok.
  destruct (lookup_lt_is_Some_2 b1 i) as [v Hv];
    [rewrite length_b1; lia|].
  unfold acc. rewrite Hv. exact (Forall_lookup_1 _ b1 _ _ b1_ok Hv).
Qed.

Lemma diffuse_well_formed : well_formed (diffuse W H t a0 b0).
Proof.
  unfold well_formed. rewrite length_temp.
  split; [done|]. split; [done|]. split; [done|]. split.
  - apply Forall_lookup. intros i z Hi. by apply (temp_published i z).
  - rewrite diffuse_eq. cbn. rewrite length_b1, length_reconcile.
    split; [done|]. split; [apply b1_ok|apply a1_ok].
Qed.

End Diffuse.

(** On a well-formed state the frame does not throw and is [diffuse] on
    buffers of the right size that hold numbers of [0, 100]. *)
Lemma updateGrid_eq (st : state) :
  well_formed st →
  ∃ a0 b0,
    ensureBuffers (GRID_W st * GRID_H st) st = Some (Some a0, Some b0) ∧
    updateGrid st = Some (diffuse (GRID_W st) (GRID_H st) (temp st) a0 b0) ∧
    Z.of_nat (length a0) = GRID_W st * GRID_H st ∧
    length b0 = length a0 ∧ Forall ok a0 ∧ Forall ok b0.
Proof.
  intros Hwf.
  destruct (ensureBuffers_ok st Hwf) as (a0 & b0 & He & Hrest).
  exists a0, b0. split; [done|]. split; [|done].
  unfold updateGrid. by rewrite He.
Qed.

Lemma updateGrid_preserves (st st' : state) :
  well_formed st → updateGrid st = Some st' → well_formed st'.
Proof.
  intros Hwf Hstep.
  destruct (updateGrid_eq st Hwf) as (a0 & b0 & _ & Heq & Hla & Hlb & Ha & _).
  rewrite Heq in Hstep. injection Hstep as <-.
  destruct Hwf as (HW & HH & Hlen & Ht & _).
  by apply diffuse_well_formed.
Qed.

(** Frame sequences: the host's writes and the frames keep the state well
    formed, so the field and both accumulators stay in range. *)
Lemma run_well_formed (edits : list (option field)) (st : state) :
  well_formed st → Forall (from_option field_ok True) edits →
  ∃ st', run edits st = Some st' ∧ well_formed st'.
Proof.
  revert st. induction edits as [|e edits IH]; intros st Hwf He.
  - by exists st.
  - apply Forall_cons in He as [He Hes]. cbn [run].
    set (st1 := from_option (λ g, host_write g st) st e).
    assert (well_formed st1) as Hwf1.
    { destruct e as [g|]; [|done].
      destruct He as (? & ? & ? & ?), Hwf as (_ & _ & _ & _ & ?). done. }
    destruct (updateGrid_eq st1 Hwf1) as (a0 & b0 & _ & Heq & _).
    rewrite Heq. cbn. apply IH; [|done].
    eapply updateGrid_preserves; done.
Qed.

End StepB.

(** * The specification's statements about Variant A *)

Section ClaimsA.
Import NeighbourTransfer.

(** C2. Scenario A: on a 3x3 grid with [FLOW_RATE = 0.25], from centre 100
    and zeros elsewhere, one frame gives each of the four cardinal
    neighbours of the centre 25, leaves the four diagonal cells at 0 and
    brings the centre to 0. *)
Theorem scenario_A_centre_hot :
  FLOW_RATE == 0.25 ∧
  temp <$> updateGrid (State 3 3 [0; 0; 0; 0; 100; 0; 0; 0; 0] None)
    = Some [0; 25; 0; 25; 0; 25; 0; 25; 0].
Proof. split; [reflexivity|]. vm_compute. reflexivity. Qed.

(** C6. A uniform field of a value in [0,100] stays exactly that uniform
    field under any number of frames, whatever the snapshot buffer held. *)
Theorem uniform_field_is_fixed (n : nat) (W H v : Z) (old : option (list Z)) :
  1 <= W → 1 <= H → in_range v →
  temp <$> frames n (State W H (replicate (Z.to_nat (W * H)) v) old)
    = Some (replicate (Z.to_nat (W * H)) v).
Proof.
  intros HW HH Hv. revert old.
  induction n as [|n IH]; intros old; [done|].
  cbn [frames].
  destruct (updateGrid_uniform W H v old HW HH Hv) as (old' & ->).
  cbn. apply IH.
Qed.

Lemma uniform_field_is_fixed_witness :
  temp <$> frames 3 (State 2 2 (replicate (Z.to_nat (2 * 2)) 40) None)
    = Some (replicate (Z.to_nat (2 * 2)) 40).
Proof.
  apply (uniform_field_is_fixed 3 2 2 40 None); unfold in_range; lia.
Defined.

(** C7. The field a frame produces does not depend on the order in which
    the cells are visited: any permutation of the row-major order gives the
    result of the row-major loops, for every state. *)
Theorem visiting_order_irrelevant (order : list (Z * Z)) (st : state) :
  order ≡ₚ row_major (GRID_W st) (GRID_H st) →
  updateGrid_in order st = updateGrid st.
Proof.
  intros HP. unfold updateGrid, updateGrid_in.
  destruct (_ <? 0); [done|].
  destruct (set_from _ _) as [snap|]; [cbn|done].
  do 2 f_equal.
  apply (foldl_paint_perm (λ c, cell_index (GRID_W st) c.1 c.2)
           (λ c, new_temp (GRID_W st) (GRID_H st) snap c.1 c.2)); [done|].
  intros c c' Hc Hc' Heq.
  rewrite HP in Hc, Hc'. apply elem_of_row_major in Hc, Hc'.
  by rewrite (cell_index_inj _ _ c c' Hc Hc' Heq).
Qed.

Lemma visiting_order_irrelevant_witness :
  updateGrid_in [(1, 0); (0, 0)] (State 2 1 [2; 0] None)
    = updateGrid (State 2 1 [2; 0] None).
Proof.
  apply (visiting_order_irrelevant [(1, 0); (0, 0)] (State 2 1 [2; 0] None)).
  apply perm_swap.
Defined.

(** C9. Some field in [0,100] gains heat in one frame: [Math.round] sends
    0.5 to 1 and -0.5 to 0, so across an edge of difference 2 the cooler
    cell takes 1 and the hotter one gives 0; on the 1x2 grid [2; 0] the
    total goes from 2 to 3. *)
Theorem total_can_grow :
  Math_round (1 # 2) = 1 ∧ Math_round (- (1 # 2)) = 0 ∧
  transfer 2 = 1 ∧ transfer (-2) = 0 ∧
  ∃ st st', well_formed st ∧ Forall in_range (temp st) ∧
    GRID_W st = 2 ∧ GRID_H st = 1 ∧ temp st = [2; 0] ∧
    updateGrid st = Some st' ∧ temp st' = [2; 1] ∧
    total (temp st) < total (temp st').
Proof.
  repeat split; try reflexivity.
  exists (State 2 1 [2; 0] None), (State 2 1 [2; 1] (Some [2; 0])).
  repeat split; try (cbn; lia).
  repeat constructor; unfold in_range; lia.
Qed.

(** C4, as stated, fails: on the 3x1 grid [0; 100; 98] the adjacent cells
    (1,0) and (2,0) differ by 2 before the frame, and the middle cell loses
    25 to its cold left neighbour, so the difference is -24 afterwards. *)
Lemma sign_flips_with_a_third_cell :
  let st := State 3 1 [0; 100; 98] None in
  let st' := State 3 1 [25; 75; 99] (Some [0; 100; 98]) in
  well_formed st ∧ Forall in_range (temp st) ∧
  on_grid 3 1 (1, 0) ∧ on_grid 3 1 (2, 0) ∧ adjacent (1, 0) (2, 0) ∧
  2 <= Z.abs (at_cell 3 (temp st) (1, 0) - at_cell 3 (temp st) (2, 0)) ∧
  updateGrid st = Some st' ∧
  opposite_sign (at_cell 3 (temp st) (1, 0) - at_cell 3 (temp st) (2, 0))
                (at_cell 3 (temp st') (1, 0) - at_cell 3 (temp st') (2, 0)).
Proof.
  cbn zeta. split; [unfold well_formed; cbn; lia|].
  split; [repeat constructor; unfold in_range; lia|].
  split; [unfold on_grid; cbn; lia|].
  split; [unfold on_grid; cbn; lia|].
  split; [unfold adjacent; cbn; lia|].
  split; [by vm_compute|].
  split; [vm_compute; reflexivity|].
  left. split; reflexivity.
Qed.

(** The exchange across one edge never reverses the difference. *)
Lemma edge_exchange_keeps_sign (a b : Z) :
  ¬ opposite_sign (a - b) ((a + transfer (b - a)) - (b + transfer (a - b))).
Proof.
  unfold opposite_sign.
  destruct (Z.lt_trichotomy a b) as [Hlt|[->|Hgt]].
  - pose proof (transfer_pos (b - a) ltac:(lia)).
    pose proof (transfer_neg (a - b) ltac:(lia)). lia.
  - rewrite Z.sub_diag, transfer_0. lia.
  - pose proof (transfer_pos (a - b) ltac:(lia)).
    pose proof (transfer_neg (b - a) ltac:(lia)). lia.
Qed.

(** A frame on a grid of just two cells: each cell takes the clamped
    transfer from the other one, and nothing else. *)
Lemma updateGrid_two_cells (W H a b : Z) (old : option (list Z)) :
  1 <= W → 1 <= H → W * H = 2 → in_range a → in_range b →
  updateGrid (State W H [a; b] old) =
    Some (State W H [Z.max 0 (Z.min 100 (a + transfer (b - a)));
                     Z.max 0 (Z.min 100 (b + transfer (a - b)))]
            (Some [a; b])).
Proof.
  intros HW HH Hsz Ha Hb.
  assert (HWH : (W = 2 ∧ H = 1) ∨ (W = 1 ∧ H = 2)) by nia.
  unfold updateGrid. rewrite updateGrid_in_eq
    by (unfold well_formed; cbn; lia).
  cbn [GRID_W GRID_H temp].
  rewrite (to_uint8_in_range [a; b]) by (repeat apply Forall_cons_2; done).
  do 2 f_equal.
  destruct HWH as [[-> ->]|[-> ->]];
    change (row_major _ _) with ([(0, 0); (1, 0)] : list (Z * Z)) ||
    change (row_major _ _) with ([(0, 0); (0, 1)] : list (Z * Z));
    cbn [foldl]; unfold visit, new_temp, NEIGHBOURS; cbn [foldl fst snd];
    repeat (first
      [ rewrite neighbour_step_out by (unfold on_grid; cbn; lia)
      | rewrite neighbour_step_in by (unfold on_grid; cbn; lia) ]);
    reflexivity.
Qed.

(** C4, amended. The sign-reversal guard is a guarantee about one edge:
    the two transfers that adjacent cells compute for each other never give
    their difference the opposite sign, whatever the difference; so on a
    grid made of just two cells a frame never flips the sign of their
    difference. *)
Theorem sign_kept_across_one_edge (W H a b : Z) (old : option (list Z)) :
  1 <= W → 1 <= H → W * H = 2 → in_range a → in_range b →
  ¬ opposite_sign (a - b) ((a + transfer (b - a)) - (b + transfer (a - b))) ∧
  ∃ a' b' snap,
    updateGrid (State W H [a; b] old) = Some (State W H [a'; b'] snap) ∧
    ¬ opposite_sign (a - b) (a' - b').
Proof.
  intros HW HH Hsz Ha Hb. split; [apply edge_exchange_keeps_sign|].
  eexists _, _, _. split; [by apply updateGrid_two_cells|].
  pose proof (edge_exchange_keeps_sign a b) as Hedge.
  unfold opposite_sign, in_range in *. lia.
Qed.

Lemma sign_kept_across_one_edge_witness :
  ¬ opposite_sign (100 - 98)
      ((100 + transfer (98 - 100)) - (98 + transfer (100 - 98))) ∧
  ∃ a' b' snap,
    updateGrid (State 2 1 [100; 98] None) = Some (State 2 1 [a'; b'] snap) ∧
    ¬ opposite_sign (100 - 98) (a' - b').
Proof.
  apply (sign_kept_across_one_edge 2 1 100 98 None);
    unfold in_range; lia.
Defined.

End ClaimsA.

(** * The specification's statements about Variant B *)

Section ClaimsB.
Import Number LaplacianStencil.

#[local] Abbreviation ok := (λ v : number, acc_ok v = true).

(** C5. Scenario B: on a 2x2 grid with [DIFFUSIVITY = 0.2], from the field
    [100; 0; 0; 0] and freshly seeded accumulators, each cell's next value
    is the clamped [center + 0.2 * (up + down + left + right - 4 * center)]
    in which a neighbour off the grid is the cell itself, and one frame
    publishes [60; 20; 20; 0]. *)
Theorem scenario_B_corner_hot :
  let seed := fround ∘ of_Z <$> [100; 0; 0; 0] in
  let clamp := λ v, Math_max (of_Z 0) (Math_min (of_Z 100) v) in
  let next := λ center up down left right,
    clamp (center + DIFFUSIVITY
                    * (up + down + left + right - of_Z 4 * center))%num in
  DIFFUSIVITY = SFdiv 53 1024 (of_Z 2) (of_Z 10) ∧
  ensureBuffers (2 * 2) (State 2 2 [100; 0; 0; 0] None None)
    = Some (Some seed, Some seed) ∧
  stencil 2 2 seed 0 0
    = next (acc seed 0) (acc seed 0) (acc seed 2) (acc seed 0) (acc seed 1) ∧
  stencil 2 2 seed 1 0
    = next (acc seed 1) (acc seed 1) (acc seed 3) (acc seed 0) (acc seed 1) ∧
  stencil 2 2 seed 0 1
    = next (acc seed 2) (acc seed 0) (acc seed 2) (acc seed 2) (acc seed 3) ∧
  stencil 2 2 seed 1 1
    = next (acc seed 3) (acc seed 1) (acc seed 3) (acc seed 2) (acc seed 3) ∧
  (λ c : Z * Z, to_byte (clamp (Math_round (stencil 2 2 seed c.1 c.2))))
    <$> row_major 2 2 = [60; 20; 20; 0] ∧
  temp <$> updateGrid (State 2 2 [100; 0; 0; 0] None None)
    = Some [60; 20; 20; 0].
Proof. cbv zeta. repeat split; vm_compute; reflexivity. Qed.

(** C8. Both accumulators hold numbers of [0, 100] after every frame of
    every frame sequence that starts from a field in [0, 100]: after a
    non-empty sequence the buffers exist, have the size of the grid, and
    every value in them lies between 0 and 100. *)
Theorem accumulators_stay_in_range
    (e : option field) (edits : list (option field)) (st : state) :
  well_formed st → Forall (from_option field_ok True) (e :: edits) →
  ∃ st' a b,
    run (e :: edits) st = Some st' ∧
    stateA st' = Some a ∧ stateB st' = Some b ∧
    Z.of_nat (length a) = GRID_W st' * GRID_H st' ∧ length b = length a ∧
    Forall ok a ∧ Forall ok b ∧
    Forall (within 25 2) a ∧ Forall (within 25 2) b.
Proof.
  intros Hwf He.
  destruct (exists_last (l := e :: edits) ltac:(done)) as (l & x & Hsnoc).
  rewrite Hsnoc in *. apply Forall_app in He as [Hl Hx].
  rewrite Forall_singleton in Hx.
  destruct (run_well_formed l st Hwf Hl) as (st1 & Hrun1 & Hwf1).
  assert (∀ l' s, run (l' ++ [x]) s =
            s' ← run l' s; updateGrid (from_option (λ g, host_write g s') s' x))
    as Hrun.
  { induction l' as [|y l' IH]; intros s; cbn.
    - by destruct (updateGrid _).
    - destruct (updateGrid _); [cbn; apply IH|done]. }
  rewrite Hrun, Hrun1. cbn.
  set (st2 := from_option (λ g, host_write g st1) st1 x).
  assert (well_formed st2) as Hwf2.
  { destruct x as [g|]; [|done]. cbn in Hx.
    destruct Hx as (? & ? & ? & ?), Hwf1 as (_ & _ & _ & _ & ?). done. }
  destruct (updateGrid_eq st2 Hwf2) as (a0 & b0 & _ & -> & Hla & Hlb & Ha & _).
  destruct Hwf2 as (HW & HH & Hlen & Ht & _).
  eexists _, _, _. split; [done|]. rewrite diffuse_eq. cbn.
  split; [done|]. split; [done|].
  pose proof (b1_ok _ _ _ a0 b0 HW HH Hlen Ht Hla Hlb Ha) as Hb1.
  pose proof (a1_ok _ _ _ a0 Hlen Ht Hla Ha) as Ha1.
  rewrite length_b1, length_reconcile by done.
  repeat split; try done.
  - eapply Forall_impl; [exact Hb1|]. intros v. by apply acc_ok_within.
  - eapply Forall_impl; [exact Ha1|]. intros v. by apply acc_ok_within.
Qed.

Lemma accumulators_stay_in_range_witness :
  ∃ st' a b,
    run [None; Some (Field 1 2 [7; 100])] (State 2 2 [100; 0; 0; 0] None None)
      = Some st' ∧
    stateA st' = Some a ∧ stateB st' = Some b ∧
    Z.of_nat (length a) = GRID_W st' * GRID_H st' ∧ length b = length a ∧
    Forall ok a ∧ Forall ok b ∧
    Forall (within 25 2) a ∧ Forall (within 25 2) b.
Proof.
  apply (accumulators_stay_in_range None [Some (Field 1 2 [7; 100])]
           (State 2 2 [100; 0; 0; 0] None None)).
  - unfold well_formed; cbn. repeat split; try lia.
    repeat apply Forall_cons_2; try apply Forall_nil_2; unfold in_range; lia.
  - repeat apply Forall_cons_2; try apply Forall_nil_2; [done|].
    unfold field_ok; cbn. repeat split; try lia.
    repeat apply Forall_cons_2; try apply Forall_nil_2; unfold in_range; lia.
Defined.

(** The reconciliation pass changes nothing where field and rounded
    accumulator agree. *)
Lemma reconcile_fixed (size : Z) (t : list Z) (a : list number) :
  (∀ i, (i < length a)%nat →
        strict_neq (field_at t i) (Math_round (acc a i)) = false) →
  reconcile size t a = a.
Proof.
  intros Hagree. apply list_eq. intros j. unfold reconcile.
  destruct (reconcile_prefix t a (Z.to_nat size)) as [_ ->].
  case_decide as Hd; [|done]. destruct Hd as [_ Hj].
  unfold reconciled. rewrite (Hagree j Hj). unfold acc.
  by destruct (lookup_lt_is_Some_2 a j Hj) as [v ->].
Qed.

(** C10. At the end of a frame the published field is, cell by cell, the
    rounded value of the accumulator that the swap makes current; so when
    nothing writes the field before the next frame, that frame keeps its
    buffers and its reconciliation pass leaves the accumulator as it is. *)
Theorem published_field_is_rounded_accumulator (st : state) :
  well_formed st →
  ∃ st' a' b',
    updateGrid st = Some st' ∧
    stateA st' = Some a' ∧ stateB st' = Some b' ∧
    (∀ i, (i < length (temp st'))%nat →
          strict_neq (field_at (temp st') i) (Math_round (acc a' i)) = false) ∧
    ensureBuffers (GRID_W st' * GRID_H st') st' = Some (Some a', Some b') ∧
    reconcile (GRID_W st' * GRID_H st') (temp st') a' = a'.
Proof.
  intros Hwf.
  destruct (updateGrid_eq st Hwf) as (a0 & b0 & _ & Heq & Hla & Hlb & Ha & _).
  destruct Hwf as (HW & HH & Hlen & Ht & _).
  pose proof (length_temp (GRID_W st) (GRID_H st) (temp st) a0 b0) as Hlt.
  pose proof (length_b1 (GRID_W st) (GRID_H st) (temp st) a0 b0 Hlb) as Hlb1.
  pose proof (temp_published _ _ _ a0 b0 HW HH Hlen Ht Hla Hlb Ha) as Hpub.
  rewrite diffuse_eq in Hlt, Hpub. cbn [temp] in Hlt, Hpub.
  eexists _, _, _. split; [exact Heq|]. rewrite diffuse_eq. cbn.
  set (a1 := reconcile _ _ a0) in *. set (b1 := foldl _ b0 _) in *.
  set (t1 := foldl _ (temp st) _) in *.
  assert (∀ i, (i < length t1)%nat →
            strict_neq (field_at t1 i) (Math_round (acc b1 i)) = false)
    as Hagree.
  { intros i Hi. destruct (lookup_lt_is_Some_2 t1 i Hi) as [z Hz].
    rewrite (field_at_lookup t1 i z Hz). by apply (Hpub i z). }
  split; [done|]. split; [done|]. split; [done|]. split.
  - unfold ensureBuffers. cbn. case_decide as Hd; [done|].
    exfalso. apply Hd. rewrite Hlb1. exact Hla.
  - apply reconcile_fixed. intros i Hi. apply Hagree.
    change (i < length b1)%nat in Hi.
    rewrite Hlt. rewrite Hlb1 in Hi. lia.
Qed.

Lemma published_field_is_rounded_accumulator_witness :
  ∃ st' a' b',
    updateGrid (State 2 2 [100; 0; 0; 0] None None) = Some st' ∧
    stateA st' = Some a' ∧ stateB st' = Some b' ∧
    (∀ i, (i < length (temp st'))%nat →
          strict_neq (field_at (temp st') i) (Math_round (acc a' i)) = false) ∧
    ensureBuffers (GRID_W st' * GRID_H st') st' = Some (Some a', Some b') ∧
    reconcile (GRID_W st' * GRID_H st') (temp st') a' = a'.
Proof.
  apply (published_field_is_rounded_accumulator
           (State 2 2 [100; 0; 0; 0] None None)).
  unfold well_formed; cbn. repeat split; try lia.
  repeat apply Forall_cons_2; try apply Forall_nil_2; unfold in_range; lia.
Defined.

(** Two accumulators that differ in one cell, both off the field's value
    there, are reconciled to the same accumulator. *)
Lemma reconcile_forgets (size : Z) (t : list Z) (a : list number)
    (i : nat) (v : number) :
  (i < Z.to_nat size)%nat →
  strict_neq (field_at t i) (Math_round (acc a i)) = true →
  strict_neq (field_at t i) (Math_round v) = true →
  reconcile size t (<[i := v]> a) = reconcile size t a.
Proof.
  intros Hsz Ha Hv. apply list_eq. intros j. unfold reconcile.
  destruct (reconcile_prefix t (<[i := v]> a) (Z.to_nat size)) as [_ ->].
  destruct (reconcile_prefix t a (Z.to_nat size)) as [_ ->].
  rewrite length_insert.
  destruct (decide (i = j)) as [<-|Hne].
  - case_decide as Hd.
    + destruct Hd as [_ Hi]. unfold reconciled. rewrite Ha.
      replace (acc (<[i := v]> a) i) with v
        by (unfold acc; by rewrite list_lookup_insert_eq).
      by rewrite Hv.
    + rewrite !lookup_ge_None_2; [done|lia|rewrite length_insert; lia].
  - unfold reconciled, acc. rewrite list_lookup_insert_ne by done. done.
Qed.

(** What [ensureBuffers] does to buffers that exist: kept when they have
    the size of the grid, dropped for fresh seeds otherwise. *)
Lemma ensureBuffers_cases (st : state) (a b : list number) :
  0 <= GRID_W st * GRID_H st →
  stateA st = Some a → stateB st = Some b →
  let size := GRID_W st * GRID_H st in
  let seed := (λ i, fround (field_at (temp st) i)) <$> seq 0 (Z.to_nat size) in
  (Z.of_nat (length a) = size ∧
   ensureBuffers size st = Some (Some a, Some b)) ∨
  (Z.of_nat (length a) ≠ size ∧
   ensureBuffers size st = Some (Some seed, Some seed)).
Proof.
  intros Hsz Ea Eb size seed. unfold ensureBuffers. rewrite Ea, Eb.
  fold size. case_decide; [by left|right].
  destruct (Z.ltb_spec size 0); [lia|done].
Qed.

(** Reconciling a freshly seeded accumulator leaves the seed. *)
Lemma reconcile_seed_lookup (size : Z) (t : list Z) (i : nat) :
  (i < Z.to_nat size)%nat →
  reconcile size t ((λ i, fround (field_at t i)) <$> seq 0 (Z.to_nat size))
    !! i = Some (fround (field_at t i)).
Proof.
  intros Hi.
  assert (((λ i, fround (field_at t i)) <$> seq 0 (Z.to_nat size)) !! i
          = Some (fround (field_at t i))) as Hseed.
  { rewrite list_lookup_fmap, lookup_seq_lt by done. done. }
  rewrite reconcile_lookup by (rewrite ?length_fmap, ?length_seq; done).
  unfold reconciled, acc. rewrite Hseed. cbn. by destruct (strict_neq _ _).
Qed.

(** C3. When, at the entry of a frame, the field's integer at a cell
    differs from the rounded current accumulator there, the accumulator
    that the stencil reads holds exactly that integer at the cell, no
    fraction left; the stencil takes it as the centre of the cell, and the
    state the frame produces is the same whatever the accumulator held
    there before, among the values that round to something else. *)
Theorem external_edit_is_adopted
    (st : state) (a b : list number) (c : Z * Z) (z : Z) :
  let W := GRID_W st in
  let H := GRID_H st in
  let i := cell_index W c.1 c.2 in
  well_formed st →
  stateA st = Some a → stateB st = Some b →
  on_grid W H c →
  temp st !! i = Some z →
  strict_neq (of_Z z) (Math_round (acc a i)) = true →
  ∃ a0 b0 st' a',
    ensureBuffers (W * H) st = Some (Some a0, Some b0) ∧
    let a1 := reconcile (W * H) (temp st) a0 in
    a1 !! i = Some (fround (of_Z z)) ∧
    is_integer (fround (of_Z z)) z = true ∧
    acc_at a1 (c.2 * W + c.1) = fround (of_Z z) ∧
    updateGrid st = Some st' ∧
    stateB st' = Some a1 ∧ stateA st' = Some a' ∧
    a' !! i = Some (fround (stencil W H a1 c.1 c.2)) ∧
    ∀ v, strict_neq (of_Z z) (Math_round v) = true →
         updateGrid (State W H (temp st) (Some (<[i := v]> a)) (Some b))
           = Some st'.
Proof.
  intros W H i Hwf Ea Eb Hc Hz Hneq.
  destruct (ensureBuffers_ok st Hwf) as (a0 & b0 & He & Hla & Hlb & Ha & _).
  fold W H in He, Hla.
  pose proof (cell_index_lt W H c Hc) as Hi. fold i in Hi.
  assert (field_at (temp st) i = of_Z z) as Hf by by apply field_at_lookup.
  pose proof Hwf as (HW & HH & Hlen & Ht & _). fold W H in HW, HH, Hlen.
  exists a0, b0. eexists _, _. split; [exact He|]. cbv zeta.
  assert (reconcile (W * H) (temp st) a0 !! i = Some (fround (of_Z z)))
    as Ha1.
  { destruct (ensureBuffers_cases st a b ltac:(fold W H; lia) Ea Eb)
      as [[_ He']|[_ He']]; fold W H in He'; rewrite He in He';
      injection He' as -> ->.
    - rewrite reconcile_lookup by lia. unfold reconciled.
      by rewrite Hf, Hneq.
    - by rewrite reconcile_seed_lookup, Hf by done. }
  split; [done|]. split.
  { apply seed_integer.
    pose proof (Forall_lookup_1 _ _ _ _ Ht Hz) as Hr.
    unfold in_range in Hr. lia. }
  split.
  { unfold acc_at, acc. destruct Hc as [? ?].
    destruct (Z.ltb_spec (c.2 * W + c.1) 0); [nia|].
    fold (cell_index W c.1 c.2). fold i. by rewrite Ha1. }
  split.
  { unfold updateGrid. fold W H. by rewrite He. }
  rewrite diffuse_eq. cbn [stateA stateB].
  split; [done|]. split; [done|]. split.
  { apply (b1_lookup W H (temp st) a0 b0); done. }
  intros v Hv. unfold updateGrid. cbn [GRID_W GRID_H temp]. fold W H.
  destruct (ensureBuffers_cases st a b ltac:(fold W H; lia) Ea Eb)
    as [[Hsz He']|[Hsz He']]; fold W H in He', Hsz; rewrite He in He';
    injection He' as -> ->.
  - unfold ensureBuffers. cbn [stateA stateB]. rewrite length_insert.
    case_decide; [|done]. cbn. f_equal. unfold diffuse. cbv zeta.
    by rewrite reconcile_forgets by (rewrite ?Hf; done || lia).
  - unfold ensureBuffers. cbn [stateA stateB temp]. rewrite length_insert.
    case_decide; [done|].
    destruct (Z.ltb_spec (W * H) 0); [lia|]. done.
Qed.

Lemma external_edit_is_adopted_witness :
  let a := fround ∘ of_Z <$> [60; 20; 20; 0] in
  let b := fround ∘ of_Z <$> [100; 0; 0; 0] in
  let st := State 2 2 [10; 20; 20; 0] (Some a) (Some b) in
  ∃ a0 b0 st' a',
    ensureBuffers (2 * 2) st = Some (Some a0, Some b0) ∧
    let a1 := reconcile (2 * 2) (temp st) a0 in
    a1 !! cell_index 2 0 0 = Some (fround (of_Z 10)) ∧
    is_integer (fround (of_Z 10)) 10 = true ∧
    acc_at a1 (0 * 2 + 0) = fround (of_Z 10) ∧
    updateGrid st = Some st' ∧
    stateB st' = Some a1 ∧ stateA st' = Some a' ∧
    a' !! cell_index 2 0 0 = Some (fround (stencil 2 2 a1 0 0)) ∧
    ∀ v, strict_neq (of_Z 10) (Math_round v) = true →
         updateGrid (State 2 2 (temp st)
                       (Some (<[cell_index 2 0 0 := v]> a)) (Some b))
           = Some st'.
Proof.
  intros a b st.
  apply (external_edit_is_adopted st a b (0, 0) 10).
  - unfold well_formed, st; cbn. repeat split; try lia.
    + repeat apply Forall_cons_2; try apply Forall_nil_2;
        unfold in_range; lia.
    + repeat apply Forall_cons_2; try apply Forall_nil_2;
        vm_compute; reflexivity.
    + repeat apply Forall_cons_2; try apply Forall_nil_2;
        vm_compute; reflexivity.
  - reflexivity.
  - reflexivity.
  - unfold on_grid; cbn; lia.
  - reflexivity.
  - vm_compute; reflexivity.
Defined.

End ClaimsB.

(** * The range invariant, for both strategies *)

(** C1. From a grid of positive size whose cells all lie in [0,100], one
    frame of either strategy returns and leaves every cell in [0,100]; so
    it is after every frame of every frame sequence, whatever the host
    writes into the grid between the frames. *)
Theorem field_stays_in_range
    (edits : list (option field)) (k : nat)
    (sa : NeighbourTransfer.state) (sb : LaplacianStencil.state) :
  NeighbourTransfer.well_formed sa →
  Forall in_range (NeighbourTransfer.temp sa) →
  LaplacianStencil.well_formed sb →
  Forall (from_option field_ok True) edits →
  (∃ sa', NeighbourTransfer.updateGrid sa = Some sa' ∧
          Forall in_range (NeighbourTransfer.temp sa')) ∧
  (∃ sb', LaplacianStencil.updateGrid sb = Some sb' ∧
          Forall in_range (LaplacianStencil.temp sb')) ∧
  (∃ sa', NeighbourTransfer.run (take k edits) sa = Some sa' ∧
          Forall in_range (NeighbourTransfer.temp sa')) ∧
  (∃ sb', LaplacianStencil.run (take k edits) sb = Some sb' ∧
          Forall in_range (LaplacianStencil.temp sb')).
Proof.
  intros Hwa Hra Hwb He.
  assert (Forall (from_option field_ok True) (take k edits)) as Hk
    by by apply Forall_take.
  split.
  { destruct (run_range [None] sa Hwa Hra) as (sa' & Hrun & _ & Hr).
    - by apply Forall_singleton.
    - cbn in Hrun. destruct (NeighbourTransfer.updateGrid sa) as [s|]; [|done].
      injection Hrun as ->. by exists sa'. }
  split.
  { destruct (updateGrid_eq sb Hwb) as (a0 & b0 & _ & Heq & _).
    eexists. split; [exact Heq|].
    eapply updateGrid_preserves in Heq; [|done].
    by destruct Heq as (_ & _ & _ & Hr & _). }
  split.
  { destruct (run_range _ sa Hwa Hra Hk) as (sa' & Hrun & _ & Hr).
    by exists sa'. }
  destruct (run_well_formed _ sb Hwb Hk) as (sb' & Hrun & Hwf).
  exists sb'. split; [done|]. by destruct Hwf as (_ & _ & _ & Hr & _).
Qed.

Lemma field_stays_in_range_witness :
  let edits := [None; Some (Field 1 2 [7; 100]); None] in
  let sa := NeighbourTransfer.State 3 1 [0; 100; 98] None in
  let sb := LaplacianStencil.State 2 2 [100; 0; 0; 0] None None in
  (∃ sa', NeighbourTransfer.updateGrid sa = Some sa' ∧
          Forall in_range (NeighbourTransfer.temp sa')) ∧
  (∃ sb', LaplacianStencil.updateGrid sb = Some sb' ∧
          Forall in_range (LaplacianStencil.temp sb')) ∧
  (∃ sa', NeighbourTransfer.run (take 2 edits) sa = Some sa' ∧
          Forall in_range (NeighbourTransfer.temp sa')) ∧
  (∃ sb', LaplacianStencil.run (take 2 edits) sb = Some sb' ∧
          Forall in_range (LaplacianStencil.temp sb')).
Proof.
  intros edits sa sb.
  apply (field_stays_in_range edits 2 sa sb).
  - unfold NeighbourTransfer.well_formed; cbn; lia.
  - repeat apply Forall_cons_2; try apply Forall_nil_2; unfold in_range; lia.
  - unfold LaplacianStencil.well_formed; cbn. repeat split; try lia.
    repeat apply Forall_cons_2; try apply Forall_nil_2; unfold in_range; lia.
  - repeat apply Forall_cons_2; try apply Forall_nil_2; try done.
    unfold field_ok; cbn. repeat split; try lia.
    repeat apply Forall_cons_2; try apply Forall_nil_2; unfold in_range; lia.
Defined.

(** * Further properties of Variant A *)

Section MoreTransfer.
Import NeighbourTransfer.

Lemma transfer_floor (d : Z) : transfer d = (d + 2) / 4.
Proof.
  rewrite transfer_eq. destruct (Z.ltb_spec 0 d);
    Z.to_euclidean_division_equations; lia.
Qed.

(** X1. At [FLOW_RATE = 0.25] the equilibrium-safety clamp of lines 134-142
    never binds: for every difference the clamped transfer is the rounded
    raw transfer [Math.round(diff * FLOW_RATE)], the floor of
    [(diff + 2) / 4]. *)
Theorem clamp_never_binds (d : Z) :
  transfer d = Math_round (inject_Z d * FLOW_RATE) ∧ transfer d = (d + 2) / 4.
Proof. rewrite Math_round_quarter. split; apply transfer_floor. Qed.

(** X2. The two transfers across one edge cancel, except when the
    difference leaves remainder 2 modulo 4: then the cooler cell takes one
    unit more than the warmer one gives. *)
Theorem edge_creates_heat_mod_4 (d : Z) :
  transfer d + transfer (- d) = if d mod 4 =? 2 then 1 else 0.
Proof.
  rewrite !transfer_floor.
  destruct (Z.eqb_spec (d mod 4) 2);
    Z.to_euclidean_division_equations; lia.
Qed.

(** X3. The exchange across one edge never makes the difference of its
    two cells larger than it was, and never reverses it: from [a >= b] the
    new difference lies between 0 and [a - b]. *)
Theorem edge_exchange_contracts (a b : Z) :
  b <= a →
  0 <= (a + transfer (b - a)) - (b + transfer (a - b)) <= a - b.
Proof.
  intros Hab. destruct (decide (a = b)) as [->|Hne].
  - lia.
  - pose proof (transfer_pos (a - b) ltac:(lia)).
    pose proof (transfer_neg (b - a) ltac:(lia)). lia.
Qed.

Lemma edge_exchange_contracts_witness :
  0 <= (100 + transfer (98 - 100)) - (98 + transfer (100 - 98)) <= 100 - 98.
Proof. apply (edge_exchange_contracts 100 98). lia. Defined.

End MoreTransfer.

Section MoreCells.
Import NeighbourTransfer.
Variables W H : Z.

Lemma neighbour_step_contribution (old : list Z) (x y delta : Z) (d : Z * Z) :
  neighbour_step W H old x y (read old (cell_index W x y)) delta d
    = delta + contribution W H old x y d.
Proof.
  unfold contribution. case_decide.
  - by apply neighbour_step_in.
  - rewrite neighbour_step_out by done. lia.
Qed.

(** The value written to a cell: the clamped sum of the cell and the four
    contributions. *)
Lemma new_temp_sum (old : list Z) (x y : Z) :
  new_temp W H old x y =
    Z.max 0 (Z.min 100
      (read old (cell_index W x y)
       + (contribution W H old x y (0, -1) + contribution W H old x y (0, 1)
          + contribution W H old x y (-1, 0)
          + contribution W H old x y (1, 0)))).
Proof.
  unfold new_temp, NEIGHBOURS. cbn [foldl].
  rewrite !neighbour_step_contribution. lia.
Qed.

Lemma read_Forall (P : Z → Prop) (t : list Z) (c : Z * Z) :
  Z.of_nat (length t) = W * H → on_grid W H c → Forall P t →
  P (read t (cell_index W c.1 c.2)).
Proof.
  intros Hlen Hc Ht. pose proof (cell_index_lt W H c Hc) as Hlt.
  destruct (lookup_lt_is_Some_2 t (cell_index W c.1 c.2) ltac:(lia))
    as [v Hv].
  unfold read. rewrite (list_lookup_total_correct _ _ _ Hv).
  exact (Forall_lookup_1 _ _ _ _ Ht Hv).
Qed.

(** A neighbour within [lo, hi] of a cell within [lo, hi] moves the cell by
    a quarter of the distance to the bounds, rounded. *)
Lemma contribution_bounds (old : list Z) (lo hi x y : Z) (d : Z * Z) :
  Z.of_nat (length old) = W * H → on_grid W H (x, y) →
  Forall (λ v, lo <= v <= hi) old →
  lo - read old (cell_index W x y) - 1 <= 4 * contribution W H old x y d
    <= hi - read old (cell_index W x y) + 2.
Proof.
  intros Hlen Hc Hold.
  pose proof (read_Forall _ old (x, y) Hlen Hc Hold) as Hcell. cbn in Hcell.
  unfold contribution. case_decide as Hd; [|lia].
  pose proof (read_Forall _ old _ Hlen Hd Hold) as Hn. cbn in Hn.
  rewrite transfer_floor. Z.to_euclidean_division_equations; lia.
Qed.

Lemma new_temp_bounds (old : list Z) (lo hi x y : Z) :
  Z.of_nat (length old) = W * H → on_grid W H (x, y) →
  0 <= lo → hi <= 100 →
  Forall (λ v, lo <= v <= hi) old →
  lo - 1 <= new_temp W H old x y <= hi + 2.
Proof.
  intros Hlen Hc Hlo Hhi Hold. rewrite new_temp_sum.
  pose proof (read_Forall _ old (x, y) Hlen Hc Hold) as Hcell. cbn in Hcell.
  pose proof (contribution_bounds old lo hi x y (0, -1) Hlen Hc Hold).
  pose proof (contribution_bounds old lo hi x y (0, 1) Hlen Hc Hold).
  pose proof (contribution_bounds old lo hi x y (-1, 0) Hlen Hc Hold).
  pose proof (contribution_bounds old lo hi x y (1, 0) Hlen Hc Hold).
  lia.
Qed.

(** Within the dead zone a neighbour contributes nothing. *)
Lemma contribution_dead_zone (old : list Z) (x y : Z) (d : Z * Z) :
  (on_grid W H (x + d.1, y + d.2) →
   Z.abs (read old (cell_index W (x + d.1) (y + d.2))
          - read old (cell_index W x y)) <= 1) →
  contribution W H old x y d = 0.
Proof.
  intros Hd. unfold contribution. case_decide as Hin; [|done].
  specialize (Hd Hin). rewrite transfer_floor.
  Z.to_euclidean_division_equations; lia.
Qed.

(** A neighbour of the mirrored cell in the mirrored field contributes what
    the mirrored neighbour contributes in the field itself. *)
Lemma contribution_flip (fx fy : bool) (old old' : list Z) (x y : Z)
    (d : Z * Z) :
  on_grid W H (x, y) →
  (∀ c, on_grid W H c →
        read old' (cell_index W (flip W H fx fy c).1 (flip W H fx fy c).2)
        = read old (cell_index W c.1 c.2)) →
  contribution W H old' (flip W H fx fy (x, y)).1 (flip W H fx fy (x, y)).2
    (if fx then - d.1 else d.1, if fy then - d.2 else d.2)
  = contribution W H old x y d.
Proof.
  intros Hc Hm. unfold contribution.
  pose proof (Hm (x, y) Hc) as Hcell.
  assert (on_grid W H (x + d.1, y + d.2) →
          read old' (cell_index W (flip W H fx fy (x + d.1, y + d.2)).1
                       (flip W H fx fy (x + d.1, y + d.2)).2)
          = read old (cell_index W (x + d.1) (y + d.2))) as Hn
    by (intros Hd; apply (Hm _ Hd)).
  assert (W - 1 - x + - d.1 = W - 1 - (x + d.1)) as Ex by lia.
  assert (H - 1 - y + - d.2 = H - 1 - (y + d.2)) as Ey by lia.
  unfold flip in *. cbn [fst snd] in *.
  destruct fx, fy; rewrite ?Ex, ?Ey, Hcell;
    repeat case_decide;
    first [ by rewrite Hn | done
          | exfalso; unfold on_grid in *; cbn [fst snd] in *; lia ].
Qed.

Lemma new_temp_flip (fx fy : bool) (old old' : list Z) (x y : Z) :
  on_grid W H (x, y) →
  (∀ c, on_grid W H c →
        read old' (cell_index W (flip W H fx fy c).1 (flip W H fx fy c).2)
        = read old (cell_index W c.1 c.2)) →
  new_temp W H old' (flip W H fx fy (x, y)).1 (flip W H fx fy (x, y)).2
  = new_temp W H old x y.
Proof.
  intros Hc Hm. rewrite !new_temp_sum.
  pose proof (contribution_flip fx fy old old' x y (0, -1) Hc Hm) as H1.
  pose proof (contribution_flip fx fy old old' x y (0, 1) Hc Hm) as H2.
  pose proof (contribution_flip fx fy old old' x y (-1, 0) Hc Hm) as H3.
  pose proof (contribution_flip fx fy old old' x y (1, 0) Hc Hm) as H4.
  pose proof (Hm (x, y) Hc) as Hcell.
  cbn [fst snd] in *. rewrite Hcell.
  change (- 0) with 0 in *. change (- (-1)) with 1 in *.
  change (- (1)) with (-1) in *.
  destruct fx, fy; lia.
Qed.

End MoreCells.

Section MoreFrames.
Import NeighbourTransfer.

Lemma frame_cell (st st' : state) (c : Z * Z) :
  well_formed st → updateGrid st = Some st' →
  on_grid (GRID_W st) (GRID_H st) c →
  at_cell (GRID_W st) (temp st') c
    = new_temp (GRID_W st) (GRID_H st) (to_uint8 <$> temp st) c.1 c.2.
Proof.
  intros Hwf Hstep Hc. unfold at_cell, read.
  apply list_lookup_total_correct. by apply updateGrid_lookup.
Qed.

(** Two fields of the grid's size that agree on every grid point are equal. *)
Lemma field_ext (W H : Z) (t t' : list Z) :
  1 <= W → Z.of_nat (length t) = W * H → length t' = length t →
  (∀ c, on_grid W H c → at_cell W t' c = at_cell W t c) → t' = t.
Proof.
  intros HW Hlen Hlen' Hcells. apply list_eq. intros i.
  destruct (decide (i < length t)%nat) as [Hi|Hi].
  - destruct (cell_index_surj W H i) as (c & Hc & <-); [lia|lia|].
    specialize (Hcells c Hc). unfold at_cell, read in Hcells.
    destruct (lookup_lt_is_Some_2 t (cell_index W c.1 c.2) Hi) as [v Hv].
    destruct (lookup_lt_is_Some_2 t' (cell_index W c.1 c.2) ltac:(lia))
      as [v' Hv'].
    rewrite (list_lookup_total_correct _ _ _ Hv),
      (list_lookup_total_correct _ _ _ Hv') in Hcells.
    by rewrite Hv, Hv', Hcells.
  - rewrite !lookup_ge_None_2; [done|lia|lia].
Qed.

(** X4. The quantization dead zone: when all cardinally adjacent cells of a
    field in [0,100] differ by at most 1, a frame changes no cell. *)
Theorem dead_zone_is_fixed (st : state) :
  well_formed st → Forall in_range (temp st) →
  (∀ c c', on_grid (GRID_W st) (GRID_H st) c →
           on_grid (GRID_W st) (GRID_H st) c' → adjacent c c' →
           Z.abs (at_cell (GRID_W st) (temp st) c'
                  - at_cell (GRID_W st) (temp st) c) <= 1) →
  ∃ st', updateGrid st = Some st' ∧ temp st' = temp st.
Proof.
  intros Hwf Hr Hflat.
  destruct (updateGrid st) as [st'|] eqn:Hstep.
  2:{ unfold updateGrid in Hstep. by rewrite updateGrid_in_eq in Hstep. }
  exists st'. split; [done|].
  destruct (updateGrid_shape st st' Hwf Hstep) as (_ & _ & Hlen & _).
  pose proof Hwf as (HW & HH & Hsz).
  apply (field_ext (GRID_W st) (GRID_H st)); try done.
  intros c Hc. rewrite (frame_cell st st' c Hwf Hstep Hc).
  rewrite to_uint8_in_range, new_temp_sum by done.
  rewrite !contribution_dead_zone.
  - pose proof (read_Forall _ _ _ (temp st) c Hsz Hc Hr) as Hv.
    unfold at_cell, in_range in *. lia.
  - intros Hd. apply (Hflat c _ Hc Hd). unfold adjacent. cbn. lia.
  - intros Hd. apply (Hflat c _ Hc Hd). unfold adjacent. cbn. lia.
  - intros Hd. apply (Hflat c _ Hc Hd). unfold adjacent. cbn. lia.
  - intros Hd. apply (Hflat c _ Hc Hd). unfold adjacent. cbn. lia.
Qed.

Lemma dead_zone_is_fixed_witness :
  ∃ st', updateGrid (State 2 1 [41; 40] None) = Some st' ∧
         temp st' = temp (State 2 1 [41; 40] None).
Proof.
  apply (dead_zone_is_fixed (State 2 1 [41; 40] None)).
  - unfold well_formed; cbn; lia.
  - repeat apply Forall_cons_2; try apply Forall_nil_2; unfold in_range; lia.
  - intros [x y] [x' y'] [Hx Hy] [Hx' Hy'] _. cbn in *.
    assert (y = 0 ∧ y' = 0 ∧ (x = 0 ∨ x = 1) ∧ (x' = 0 ∨ x' = 1))
      as (-> & -> & [-> | ->] & [-> | ->]) by lia;
      vm_compute; discriminate.
Defined.

(** X5. Overshoot is bounded: when every cell of the field lies in
    [lo, hi], within [0,100], then after a frame every cell lies in
    [lo - 1, hi + 2], and still in [0,100]. *)
Theorem overshoot_is_bounded (st st' : state) (lo hi : Z) :
  well_formed st → 0 <= lo → hi <= 100 →
  Forall (λ v, lo <= v <= hi) (temp st) →
  updateGrid st = Some st' →
  Forall (λ v, Z.max 0 (lo - 1) <= v <= Z.min 100 (hi + 2)) (temp st').
Proof.
  intros Hwf Hlo Hhi Hr Hstep.
  assert (Forall in_range (temp st)) as Hin.
  { eapply Forall_impl; [exact Hr|]. unfold in_range. cbn. lia. }
  destruct (updateGrid_shape st st' Hwf Hstep) as (_ & _ & Hlen & _).
  pose proof Hwf as (HW & HH & Hsz).
  apply Forall_lookup. intros i v Hi.
  pose proof (lookup_lt_Some _ _ _ Hi) as Hlt.
  destruct (cell_index_surj (GRID_W st) (GRID_H st) i) as (c & Hc & <-);
    [lia|lia|].
  rewrite (updateGrid_lookup st st' c) in Hi by done. injection Hi as <-.
  rewrite to_uint8_in_range by done.
  pose proof (new_temp_bounds (GRID_W st) (GRID_H st) (temp st) lo hi
                c.1 c.2 Hsz ltac:(by destruct c) Hlo Hhi Hr).
  pose proof (new_temp_in_range (GRID_W st) (GRID_H st) (temp st) c.1 c.2)
    as Hn. unfold in_range in Hn. lia.
Qed.

Lemma overshoot_is_bounded_witness :
  Forall (λ v, Z.max 0 (3 - 1) <= v <= Z.min 100 (5 + 2))
    (temp (State 3 1 [4; 5; 5] (Some [3; 5; 5]))).
Proof.
  apply (overshoot_is_bounded (State 3 1 [3; 5; 5] None)
           (State 3 1 [4; 5; 5] (Some [3; 5; 5])) 3 5).
  - unfold well_formed; cbn; lia.
  - lia.
  - lia.
  - repeat apply Forall_cons_2; try apply Forall_nil_2; cbn; lia.
  - vm_compute; reflexivity.
Defined.


(** X7. Variant A keeps no memory between frames: on a well-formed state
    the new field does not depend on what the snapshot buffer held, after
    any number of frames, and the buffer a frame leaves is the field as it
    was at entry. *)
Theorem snapshot_is_not_memory
    (n : nat) (st : state) (old : option (list Z)) :
  well_formed st → Forall in_range (temp st) →
  temp <$> frames n (State (GRID_W st) (GRID_H st) (temp st) old)
    = temp <$> frames n st ∧
  ∃ st', updateGrid st = Some st' ∧ oldTemp st' = Some (temp st).
Proof.
  intros Hwf Hr. split.
  - destruct n as [|n]; [done|]. cbn [frames].
    unfold updateGrid. rewrite !updateGrid_in_eq by done. done.
  - unfold updateGrid. rewrite updateGrid_in_eq by done.
    eexists. split; [done|]. cbn. by rewrite to_uint8_in_range.
Qed.

Lemma snapshot_is_not_memory_witness :
  temp <$> frames 2 (State 2 1 [2; 0] (Some [9; 9]))
    = temp <$> frames 2 (State 2 1 [2; 0] None) ∧
  ∃ st', updateGrid (State 2 1 [2; 0] None) = Some st' ∧
         oldTemp st' = Some [2; 0].
Proof.
  apply (snapshot_is_not_memory 2 (State 2 1 [2; 0] None) (Some [9; 9])).
  - unfold well_formed; cbn; lia.
  - repeat apply Forall_cons_2; try apply Forall_nil_2; unfold in_range; lia.
Defined.

Lemma on_grid_flip (W H : Z) (fx fy : bool) (c : Z * Z) :
  on_grid W H (flip W H fx fy c) ↔ on_grid W H c.
Proof. unfold on_grid, flip. cbn. destruct fx, fy; lia. Qed.

Lemma read_snapshot (W H : Z) (t : list Z) (c : Z * Z) :
  Z.of_nat (length t) = W * H → on_grid W H c →
  read (to_uint8 <$> t) (cell_index W c.1 c.2) = to_uint8 (at_cell W t c).
Proof.
  intros Hlen Hc. pose proof (cell_index_lt W H c Hc) as Hlt.
  unfold at_cell, read. apply list_lookup_total_fmap. lia.
Qed.

(** X8. No directional bias: a frame commutes with reversing the columns,
    the rows, or both.  If one field is the mirror image of another, the
    fields after one frame are mirror images of each other. *)
Theorem frame_commutes_with_mirrors
    (fx fy : bool) (st sm st' sm' : state) :
  well_formed st →
  GRID_W sm = GRID_W st → GRID_H sm = GRID_H st →
  mirrored (GRID_W st) (GRID_H st) fx fy (temp st) (temp sm) →
  updateGrid st = Some st' → updateGrid sm = Some sm' →
  mirrored (GRID_W st) (GRID_H st) fx fy (temp st') (temp sm').
Proof.
  intros Hwf EW EH [Hlen Hm] Hstep Hstepm.
  pose proof Hwf as (HW & HH & Hsz).
  assert (well_formed sm) as Hwfm
    by (unfold well_formed; rewrite EW, EH, Hlen; done).
  destruct (updateGrid_shape st st' Hwf Hstep) as (_ & _ & Hl & _).
  destruct (updateGrid_shape sm sm' Hwfm Hstepm) as (_ & _ & Hlm & _).
  split; [lia|]. intros c Hc.
  pose proof (proj2 (on_grid_flip (GRID_W st) (GRID_H st) fx fy c) Hc) as Hfc.
  rewrite (frame_cell st st' c Hwf Hstep Hc).
  pose proof (frame_cell sm sm' (flip (GRID_W st) (GRID_H st) fx fy c)
                Hwfm Hstepm) as Hcm.
  rewrite EW, EH in Hcm. rewrite (Hcm Hfc).
  apply new_temp_flip; [by destruct c|].
  intros c0 Hc0.
  pose proof (proj2 (on_grid_flip (GRID_W st) (GRID_H st) fx fy c0) Hc0).
  rewrite (read_snapshot (GRID_W st) (GRID_H st) (temp sm)
             (flip (GRID_W st) (GRID_H st) fx fy c0)) by (done || lia).
  rewrite (read_snapshot (GRID_W st) (GRID_H st) (temp st) c0) by done.
  by rewrite Hm.
Qed.

Lemma frame_commutes_with_mirrors_witness :
  mirrored 2 1 true false [2; 1] [1; 2].
Proof.
  apply (frame_commutes_with_mirrors true false
           (State 2 1 [2; 0] None) (State 2 1 [0; 2] None)
           (State 2 1 [2; 1] (Some [2; 0])) (State 2 1 [1; 2] (Some [0; 2]))).
  - unfold well_formed; cbn; lia.
  - reflexivity.
  - reflexivity.
  - split; [reflexivity|]. intros [x y] [Hx Hy]. cbn in *.
    assert (y = 0 ∧ (x = 0 ∨ x = 1)) as (-> & [-> | ->]) by lia;
      reflexivity.
  - vm_compute; reflexivity.
  - vm_compute; reflexivity.
Defined.

End MoreFrames.

(** * Further properties of Variant B *)

Section MoreStencil.
Import Number LaplacianStencil.

Lemma same_eq (x y : number) : same x y = true → x = y.
Proof.
  destruct x as [s|s| |s m e], y as [s'|s'| |s' m' e']; cbn; try done.
  - by intros ->%Bool.eqb_prop.
  - by intros ->%Bool.eqb_prop.
  - intros [[->%Bool.eqb_prop ->%Pos.eqb_eq]%andb_prop ->%Z.eqb_eq]%andb_prop.
    done.
Qed.

(** An integer of the legal range, held by a cell and by all its
    neighbours, is a fixed point of the stencil, of the store and of the
    publication. *)
Lemma uniform_value (v : Z) :
  in_range v →
  let fv := fround (of_Z v) in
  fround (Math_max (of_Z 0) (Math_min (of_Z 100)
            (fv + DIFFUSIVITY * (fv + fv + fv + fv - of_Z 4 * fv))%num)) = fv ∧
  strict_neq (of_Z v) (Math_round fv) = false ∧
  to_byte (Math_max (of_Z 0) (Math_min (of_Z 100) (Math_round fv))) = v.
Proof.
  intros Hv.
  pose proof (forall_range
    (λ v, let fv := fround (of_Z v) in
          same (fround (Math_max (of_Z 0) (Math_min (of_Z 100)
                  (fv + DIFFUSIVITY
                        * (fv + fv + fv + fv - of_Z 4 * fv))%num))) fv
          && negb (strict_neq (of_Z v) (Math_round fv))
          && (to_byte (Math_max (of_Z 0)
                         (Math_min (of_Z 100) (Math_round fv))) =? v))
    0 101) as Hall.
  cbv beta in Hall.
  specialize (Hall ltac:(vm_compute; reflexivity) v
                ltac:(unfold in_range in Hv; lia)).
  cbv zeta in *.
  apply andb_prop in Hall as [[H1 H2]%andb_prop H3].
  apply same_eq in H1. apply negb_true_iff in H2. apply Z.eqb_eq in H3.
  done.
Qed.

(** A byte stored into an accumulator rounds back to itself. *)
Lemma byte_agrees (z : Z) :
  0 <= z <= 255 →
  strict_neq (of_Z z) (Math_round (fround (of_Z z))) = false.
Proof.
  intros Hz.
  pose proof (forall_range
    (λ z, negb (strict_neq (of_Z z) (Math_round (fround (of_Z z)))))
    0 256 ltac:(vm_compute; reflexivity) z ltac:(lia)) as Hall.
  by apply negb_true_iff in Hall.
Qed.

Lemma acc_at_replicate (n : nat) (x : number) (i : Z) :
  0 <= i < Z.of_nat n → acc_at (replicate n x) i = x.
Proof.
  intros Hi. unfold acc_at, acc.
  destruct (Z.ltb_spec i 0); [lia|].
  by rewrite lookup_replicate_2 by lia.
Qed.

Lemma stencil_uniform (W H : Z) (x : number) (c : Z * Z) :
  on_grid W H c →
  stencil W H (replicate (Z.to_nat (W * H)) x) c.1 c.2 =
    Math_max (of_Z 0) (Math_min (of_Z 100)
      (x + DIFFUSIVITY * (x + x + x + x - of_Z 4 * x))%num).
Proof.
  unfold on_grid. intros [Hx Hy]. unfold stencil. cbv zeta.
  rewrite !acc_at_replicate; [done|..];
    repeat match goal with
           | |- context [if ?b <? ?c then _ else _] =>
               destruct (Z.ltb_spec b c)
           end; nia.
Qed.

(** One frame on a uniform field whose accumulator is the stored value. *)
Lemma diffuse_uniform (W H v : Z) (b0 : list number) :
  1 <= W → 1 <= H → in_range v →
  length b0 = Z.to_nat (W * H) →
  let N := Z.to_nat (W * H) in
  let fv := fround (of_Z v) in
  diffuse W H (replicate N v) (replicate N fv) b0
    = State W H (replicate N v) (Some (replicate N fv))
        (Some (replicate N fv)).
Proof.
  intros HW HH Hv Hb0 N fv.
  destruct (uniform_value v Hv) as (Hfix & Hagree & Hpub). fold fv in Hfix,
    Hagree, Hpub.
  rewrite diffuse_eq.
  assert (reconcile (W * H) (replicate N v) (replicate N fv)
          = replicate N fv) as ->.
  { apply reconcile_fixed. intros i Hi. rewrite length_replicate in Hi.
    replace (field_at (replicate N v) i) with (of_Z v)
      by (unfold field_at; by rewrite lookup_replicate_2).
    replace (acc (replicate N fv) i) with fv
      by (unfold acc; by rewrite lookup_replicate_2).
    done. }
  set (b1 := foldl _ b0 _).
  assert (b1 = replicate N fv) as ->.
  { apply list_eq. intros i.
    assert (length b1 = N) as Hlen
      by (unfold b1; by rewrite length_foldl_paint).
    destruct (decide (i < N)%nat) as [Hi|Hi].
    - destruct (cell_index_surj W H i) as (c & Hc & <-); [lia|done|].
      rewrite lookup_replicate_2 by done. unfold b1.
      rewrite (foldl_paint_hit (λ c, cell_index W c.1 c.2)
                 (λ c, fround (stencil W H (replicate N fv) c.1 c.2))
                 _ b0 c).
      + cbn beta. by rewrite stencil_uniform, Hfix.
      + by apply elem_of_row_major.
      + intros c' Hc' Heq. apply elem_of_row_major in Hc'.
        by rewrite (cell_index_inj _ _ c' c Hc' Hc Heq).
      + lia.
    - rewrite !lookup_ge_None_2; [done|rewrite length_replicate; lia|lia]. }
  f_equal. apply list_eq. intros i.
  destruct (decide (i < N)%nat) as [Hi|Hi].
  - rewrite (foldl_paint_hit id (publish (replicate N fv)) _ _ i).
    + unfold publish.
      replace (acc (replicate N fv) i) with fv
        by (unfold acc; by rewrite lookup_replicate_2).
      by rewrite Hpub, lookup_replicate_2.
    + apply elem_of_seq. lia.
    + intros c' _ Heq. cbv [id] in Heq. by rewrite Heq.
    + by rewrite length_replicate.
  - rewrite !lookup_ge_None_2; [done|rewrite length_replicate; lia|].
    rewrite length_foldl_paint, length_replicate. lia.
Qed.

Lemma seed_uniform (n : nat) (v : Z) :
  (λ i, fround (field_at (replicate n v) i)) <$> seq 0 n
    = replicate n (fround (of_Z v)).
Proof.
  apply list_eq. intros i. rewrite list_lookup_fmap.
  destruct (decide (i < n)%nat) as [Hi|Hi].
  - rewrite lookup_seq_lt, lookup_replicate_2 by done. cbn.
    unfold field_at. by rewrite lookup_replicate_2.
  - rewrite lookup_seq_ge, lookup_ge_None_2;
      [done|rewrite length_replicate; lia|lia].
Qed.

Lemma updateGrid_uniform_B (W H v : Z) (bufs : option (list number)) :
  1 <= W → 1 <= H → in_range v →
  let N := Z.to_nat (W * H) in
  let fv := fround (of_Z v) in
  bufs = None ∨ bufs = Some (replicate N fv) →
  updateGrid (State W H (replicate N v) bufs bufs)
    = Some (State W H (replicate N v) (Some (replicate N fv))
              (Some (replicate N fv))).
Proof.
  intros HW HH Hv N fv Hb. unfold updateGrid, ensureBuffers.
  cbn [GRID_W GRID_H temp stateA stateB]. fold N.
  rewrite seed_uniform. fold fv.
  destruct (Z.ltb_spec (W * H) 0); [nia|].
  destruct Hb as [-> | ->].
  - cbn. f_equal. apply diffuse_uniform; try done.
    by rewrite length_replicate.
  - rewrite length_replicate. case_decide; [|unfold N in *; lia].
    cbn. f_equal. apply diffuse_uniform; try done.
    by rewrite length_replicate.
Qed.

(** X9. The stencil keeps a uniform field too: from a uniform field of an
    integer of [0,100] and no buffers yet, any number of frames leaves the
    field as it is, and both accumulators hold that integer in every
    cell. *)
Theorem stencil_keeps_uniform_field (n : nat) (W H v : Z) :
  1 <= W → 1 <= H → in_range v →
  let N := Z.to_nat (W * H) in
  run (replicate (S n) None) (State W H (replicate N v) None None)
    = Some (State W H (replicate N v)
              (Some (replicate N (fround (of_Z v))))
              (Some (replicate N (fround (of_Z v))))) ∧
  is_integer (fround (of_Z v)) v = true.
Proof.
  intros HW HH Hv N. split.
  - assert (∀ bufs, bufs = None ∨ bufs = Some (replicate N (fround (of_Z v))) →
              run (replicate (S n) None) (State W H (replicate N v) bufs bufs)
              = Some (State W H (replicate N v)
                        (Some (replicate N (fround (of_Z v))))
                        (Some (replicate N (fround (of_Z v)))))) as Hrun.
    { induction n as [|n IH]; intros bufs Hb.
      - cbn. by rewrite updateGrid_uniform_B.
      - change (replicate (S (S n)) None)
          with (@None field :: replicate (S n) None).
        cbn [run from_option]. rewrite updateGrid_uniform_B by done.
        cbn [mbind option_bind]. apply IH. by right. }
    apply Hrun. by left.
  - apply seed_integer. unfold in_range in Hv. lia.
Qed.

Lemma stencil_keeps_uniform_field_witness :
  let N := Z.to_nat (2 * 2) in
  run (replicate 3 None) (State 2 2 (replicate N 40) None None)
    = Some (State 2 2 (replicate N 40)
              (Some (replicate N (fround (of_Z 40))))
              (Some (replicate N (fround (of_Z 40))))) ∧
  is_integer (fround (of_Z 40)) 40 = true.
Proof.
  apply (stencil_keeps_uniform_field 2 2 2 40); unfold in_range; lia.
Defined.

(** X10. First use and resize: when there are no buffers, or the
    accumulator has not the size of the grid, the frame is the frame of a
    state without buffers, whatever the old buffers held; the accumulator
    it diffuses from holds, cell by cell, exactly the field's integer. *)
Theorem resize_reseeds_from_field
    (st : state) (a b : option (list number)) :
  let W := GRID_W st in
  let H := GRID_H st in
  1 <= W → 1 <= H →
  Z.of_nat (length (temp st)) = W * H →
  Forall in_range (temp st) →
  (∀ l, a = Some l → Z.of_nat (length l) ≠ W * H) →
  updateGrid (State W H (temp st) a b)
    = updateGrid (State W H (temp st) None None) ∧
  ∃ st' seed,
    updateGrid (State W H (temp st) a b) = Some st' ∧
    stateB st' = Some seed ∧ Z.of_nat (length seed) = W * H ∧
    ∀ i z, temp st !! i = Some z →
           ∃ x, seed !! i = Some x ∧ is_integer x z = true.
Proof.
  intros W H HW HH Hlen Hr Ha.
  assert (ensureBuffers (W * H) (State W H (temp st) a b)
          = ensureBuffers (W * H) (State W H (temp st) None None)) as He.
  { unfold ensureBuffers. cbn [stateA stateB temp].
    destruct a as [l|]; [|done].
    case_decide as Hd; [|done]. by destruct (Ha l eq_refl). }
  split; [unfold updateGrid; cbn [GRID_W GRID_H temp]; by rewrite He|].
  unfold updateGrid. cbn [GRID_W GRID_H temp]. rewrite He.
  unfold ensureBuffers. cbn [stateA stateB temp].
  destruct (Z.ltb_spec (W * H) 0); [nia|]. cbn.
  eexists _, _. split; [done|]. rewrite diffuse_eq. cbn [stateB].
  split; [done|]. split.
  { rewrite length_reconcile, length_fmap, length_seq. lia. }
  intros i z Hz. pose proof (lookup_lt_Some _ _ _ Hz) as Hi.
  exists (fround (of_Z z)). split.
  - rewrite reconcile_seed_lookup by lia.
    by rewrite (field_at_lookup _ _ _ Hz).
  - apply seed_integer.
    pose proof (Forall_lookup_1 _ _ _ _ Hr Hz) as Hv.
    unfold in_range in Hv. lia.
Qed.

Lemma resize_reseeds_from_field_witness :
  let st := State 2 1 [7; 100] None None in
  let a := Some (fround ∘ of_Z <$> [60; 20; 20; 0]) in
  updateGrid (State 2 1 (temp st) a a)
    = updateGrid (State 2 1 (temp st) None None) ∧
  ∃ st' seed,
    updateGrid (State 2 1 (temp st) a a) = Some st' ∧
    stateB st' = Some seed ∧ Z.of_nat (length seed) = 2 * 1 ∧
    ∀ i z, temp st !! i = Some z →
           ∃ x, seed !! i = Some x ∧ is_integer x z = true.
Proof.
  intros st a.
  apply (resize_reseeds_from_field st a a); cbn; try lia.
  - repeat apply Forall_cons_2; try apply Forall_nil_2; unfold in_range; lia.
  - intros l [= <-]. cbn. lia.
Defined.

(** X11. After the reconciliation pass the field and the rounded
    accumulator agree at every cell of a byte field, and a cell that agreed
    at entry keeps its accumulator, fraction and all. *)
Theorem reconciliation_agrees
    (size : Z) (t : list Z) (a : list number) (i : nat) (z : Z) :
  (i < Z.to_nat size)%nat → (i < length a)%nat →
  t !! i = Some z → 0 <= z <= 255 →
  strict_neq (of_Z z) (Math_round (acc (reconcile size t a) i)) = false ∧
  (strict_neq (of_Z z) (Math_round (acc a i)) = false →
   reconcile size t a !! i = a !! i).
Proof.
  intros Hi Hia Hz Hbyte.
  pose proof (reconcile_lookup size t a i Hi Hia) as Hl.
  unfold reconciled in Hl. rewrite (field_at_lookup _ _ _ Hz) in Hl.
  destruct (lookup_lt_is_Some_2 a i Hia) as [x Hx].
  split.
  - unfold acc at 1. rewrite Hl. cbn [default from_option id].
    destruct (strict_neq (of_Z z) (Math_round (acc a i))) eqn:Hneq;
      [by apply byte_agrees|done].
  - intros Hagree. rewrite Hl, Hagree. unfold acc. by rewrite Hx.
Qed.

Lemma reconciliation_agrees_witness :
  let a := [S754_finite false 5 (-1); S754_finite false 81 (-2)] in
  strict_neq (of_Z 10)
    (Math_round (acc (reconcile 2 [10; 20] a) 0)) = false ∧
  (strict_neq (of_Z 10) (Math_round (acc a 0)) = false →
   reconcile 2 [10; 20] a !! 0%nat = a !! 0%nat).
Proof.
  intros a.
  apply (reconciliation_agrees 2 [10; 20] a 0 10); cbn; (lia || reflexivity).
Defined.

(** X12. The reconciliation pass is idempotent: run twice on the same
    field, the second run changes nothing, whatever field and accumulator
    hold. *)
Theorem reconcile_idempotent (size : Z) (t : list Z) (a : list number) :
  reconcile size t (reconcile size t a) = reconcile size t a.
Proof.
  apply list_eq. intros j. unfold reconcile at 1.
  destruct (reconcile_prefix t (reconcile size t a) (Z.to_nat size))
    as [_ ->].
  rewrite length_reconcile.
  case_decide as Hd; [|done]. destruct Hd as [Hj Hja].
  rewrite (reconcile_lookup size t a j Hj Hja). f_equal.
  unfold reconciled at 1. unfold acc at 1 2.
  rewrite (reconcile_lookup size t a j Hj Hja). cbn [default from_option id].
  destruct (strict_neq (field_at t j) (Math_round (reconciled t a j)))
    eqn:Hneq; [|done].
  unfold reconciled in *.
  destruct (strict_neq (field_at t j) (Math_round (acc a j))) eqn:Hneq0;
    [done|]. by rewrite Hneq0 in Hneq.
Qed.



(** X14. The second buffer is write-only: a frame overwrites every cell of
    it before the swap, so what it held never reaches the result. *)
Theorem next_buffer_is_write_only
    (W H : Z) (t : list Z) (a b b' : list number) :
  1 <= W →
  Z.of_nat (length a) = W * H →
  length b = length a → length b' = length a →
  updateGrid (State W H t (Some a) (Some b))
    = updateGrid (State W H t (Some a) (Some b')).
Proof.
  intros HW Ha Hb Hb'. unfold updateGrid, ensureBuffers.
  cbn [GRID_W GRID_H temp stateA stateB].
  case_decide; [|done]. cbn. f_equal. rewrite !diffuse_eq.
  set (a1 := reconcile (W * H) t a).
  assert (∀ b0, length b0 = length a →
            foldl (paint (λ c, cell_index W c.1 c.2)
                     (λ c, fround (stencil W H a1 c.1 c.2)))
              b0 (row_major W H)
            = (λ i, fround (stencil W H a1 (Z.of_nat i mod W)
                              (Z.of_nat i / W)))
                <$> seq 0 (length a)) as Hfill.
  { intros b0 Hb0. apply list_eq. intros i.
    rewrite list_lookup_fmap.
    destruct (decide (i < length a)%nat) as [Hi|Hi].
    - rewrite lookup_seq_lt by done. cbn.
      destruct (cell_index_surj W H i) as (c & Hc & Hci); [lia|lia|].
      rewrite <- Hci at 1.
      rewrite (foldl_paint_hit (λ c, cell_index W c.1 c.2)
                 (λ c, fround (stencil W H a1 c.1 c.2)) _ b0 c).
      + cbn beta. do 3 f_equal.
        * unfold cell_index in Hci. destruct Hc as [Hx Hy].
          replace (Z.of_nat i) with (c.1 + c.2 * W) by lia.
          rewrite Z.mod_add by lia. symmetry. apply Z.mod_small. lia.
        * unfold cell_index in Hci. destruct Hc as [Hx Hy].
          replace (Z.of_nat i) with (c.1 + c.2 * W) by lia.
          rewrite Z.div_add by lia. rewrite Z.div_small by lia. lia.
      + by apply elem_of_row_major.
      + intros c' Hc' Heq. apply elem_of_row_major in Hc'.
        by rewrite (cell_index_inj _ _ c' c Hc' Hc Heq).
      + lia.
    - rewrite lookup_seq_ge by lia.
      apply lookup_ge_None_2. rewrite length_foldl_paint. lia. }
  by rewrite (Hfill b Hb), (Hfill b' Hb').
Qed.

Lemma next_buffer_is_write_only_witness :
  updateGrid (State 2 1 [7; 9] (Some [of_Z 7; of_Z 9])
                (Some [of_Z 1; of_Z 2]))
  = updateGrid (State 2 1 [7; 9] (Some [of_Z 7; of_Z 9])
                  (Some [NaN; NaN])).
Proof.
  apply (next_buffer_is_write_only 2 1 [7; 9] [of_Z 7; of_Z 9]
           [of_Z 1; of_Z 2] [NaN; NaN]); cbn; (lia || reflexivity).
Defined.

Lemma add_comm (x y : number) : (x + y)%num = (y + x)%num.
Proof.
  destruct x as [sx|sx| |sx mx ex], y as [sy|sy| |sy my ey]; try done;
    try (by destruct sx, sy).
  unfold add, SFadd. by rewrite (Z.min_comm ey ex), Z.add_comm.
Qed.

(** The stencil by coordinates: the five values it reads are the cell and
    its neighbours, a neighbour off the grid being the cell itself. *)
Lemma stencil_coordinates (W H : Z) (a : list number) (x y : Z) :
  let rd := λ x y, acc_at a (y * W + x) in
  let center := rd x y in
  let up := rd x (if 0 <? y then y - 1 else y) in
  let down := rd x (if y <? H - 1 then y + 1 else y) in
  let left := rd (if 0 <? x then x - 1 else x) y in
  let right := rd (if x <? W - 1 then x + 1 else x) y in
  stencil W H a x y =
    Math_max (of_Z 0) (Math_min (of_Z 100)
      (center
       + DIFFUSIVITY * (up + down + left + right - of_Z 4 * center))%num).
Proof.
  cbv zeta. unfold stencil. cbv zeta.
  destruct (0 <? y), (y <? H - 1);
    repeat (f_equal; try lia).
Qed.

(** X15. The stencil has no vertical bias: on the accumulator with its
    rows reversed, it computes for the mirrored cell exactly the number it
    computes for the cell. *)
Theorem stencil_commutes_with_row_reversal
    (W H : Z) (a a' : list number) (x y : Z) :
  on_grid W H (x, y) →
  (∀ c, on_grid W H c →
        acc_at a' ((H - 1 - c.2) * W + c.1) = acc_at a (c.2 * W + c.1)) →
  stencil W H a' x (H - 1 - y) = stencil W H a x y.
Proof.
  intros [Hx Hy] Hm. cbn in Hx, Hy.
  assert (∀ x0 y0, 0 <= x0 < W → 0 <= y0 < H →
            acc_at a' ((H - 1 - y0) * W + x0) = acc_at a (y0 * W + x0))
    as Hrd by (intros x0 y0 ? ?; by apply (Hm (x0, y0))).
  rewrite !stencil_coordinates. cbv zeta.
  rewrite (Hrd x y) by lia.
  rewrite (Hrd (if 0 <? x then x - 1 else x) y)
    by (destruct (Z.ltb_spec 0 x); lia).
  rewrite (Hrd (if x <? W - 1 then x + 1 else x) y)
    by (destruct (Z.ltb_spec x (W - 1)); lia).
  assert (acc_at a' ((if 0 <? H - 1 - y then H - 1 - y - 1 else H - 1 - y)
                     * W + x)
          = acc_at a ((if y <? H - 1 then y + 1 else y) * W + x)) as ->.
  { destruct (Z.ltb_spec 0 (H - 1 - y)), (Z.ltb_spec y (H - 1)); try lia.
    - replace (H - 1 - y - 1) with (H - 1 - (y + 1)) by lia.
      apply Hrd; lia.
    - apply Hrd; lia. }
  assert (acc_at a' ((if H - 1 - y <? H - 1 then H - 1 - y + 1
                      else H - 1 - y) * W + x)
          = acc_at a ((if 0 <? y then y - 1 else y) * W + x)) as ->.
  { destruct (Z.ltb_spec (H - 1 - y) (H - 1)), (Z.ltb_spec 0 y); try lia.
    - replace (H - 1 - y + 1) with (H - 1 - (y - 1)) by lia.
      apply Hrd; lia.
    - apply Hrd; lia. }
  by rewrite (add_comm (acc_at a ((if y <? H - 1 then y + 1 else y) * W + x))).
Qed.

Lemma stencil_commutes_with_row_reversal_witness :
  stencil 1 2 [of_Z 9; of_Z 7] 0 (2 - 1 - 0)
    = stencil 1 2 [of_Z 7; of_Z 9] 0 0.
Proof.
  apply (stencil_commutes_with_row_reversal 1 2
           [of_Z 7; of_Z 9] [of_Z 9; of_Z 7] 0 0).
  - unfold on_grid; cbn; lia.
  - intros [x0 y0] [Hx0 Hy0]. cbn in *.
    assert (x0 = 0 ∧ (y0 = 0 ∨ y0 = 1)) as (-> & [-> | ->]) by lia;
      reflexivity.
Defined.

End MoreStencil.
